(** * pi-search: postfix expression engine

    A shallow embedding of [main.go] (atoms, the front-biased value stack,
    [Parse], [Valid], [Evaluate], [Generate], [Improve] and the body of a
    [Search] worker) together with the properties of its specification.

    Conventions.
    - [Number] is Go's [float64]: the kernel's binary64 floats, with IEEE
      addition, multiplication, division, square root and comparison.
    - Go's [int] is a 64-bit two's complement integer: a [Z] wrapped by
      [wrap64] where the operands are arbitrary.  Counters bounded by the
      length of a slice ([size] in [Valid], loop indices) stay far inside the
      range and are plain integers.
    - A run-time panic (indexing an empty slice, a failed type assertion,
      [rand.Intn] of a non-positive bound) is the [None] of an [option].
    - [math/rand] is a sequence of raw draws consumed one per call.
    - [strconv.ParseFloat], [fmt.Sprint] on a [Number] and [math.Pow10]
      belong to Go's library and are parameters of the development. *)

From Stdlib Require Import ZArith Floats String Ascii List Lia Bool DecimalString.
From stdpp Require Import base option list.
From Equations Require Import Equations.
Import ListNotations.

Local Open Scope string_scope.
Local Open Scope list_scope.
Local Open Scope Z_scope.

(** ** Atom model *)

(** [type Operator string] with its four constants; the program converts no
    other string to an [Operator]. *)
Inductive Operator : Set := ADD | DIV | MUL | SQRT.

Definition Number : Set := float.

(** [type Atom interface { IsOperator() bool }], implemented by [Operator]
    and [Number] only. *)
Inductive Atom : Set :=
| Op (o : Operator)
| Num (n : Number).

Definition IsOperator (a : Atom) : bool :=
  match a with
  | Op _ => true
  | Num _ => false
  end.

(** The string behind each operator constant. *)
Definition symbol (o : Operator) : string :=
  match o with
  | ADD => "+"
  | DIV => "/"
  | MUL => "*"
  | SQRT => "√"
  end.

(** The type assertions [atom.(Number)] and [atom.(Operator)]: they panic on
    the other variant. *)
Definition asNumber (a : Atom) : option Number :=
  match a with
  | Num n => Some n
  | Op _ => None
  end.

Definition asOperator (a : Atom) : option Operator :=
  match a with
  | Op o => Some o
  | Num _ => None
  end.

(** ** Value stack *)

Record Stack : Set := mkStack { items : list Atom }.

Definition NewStack (its : list Atom) : Stack := mkStack its.

(** [Pop]: [s.items[0]] panics on an empty slice. *)
Definition Pop (s : Stack) : option (Atom * Stack) :=
  match items s with
  | [] => None
  | atom :: rest => Some (atom, mkStack rest)
  end.

Definition Len (s : Stack) : Z := Z.of_nat (length (items s)).

Definition Peek (s : Stack) : option Atom :=
  match items s with
  | [] => None
  | atom :: _ => Some atom
  end.

Definition Push (atom : Atom) (s : Stack) : Stack :=
  mkStack ([atom] ++ items s).

Definition Copy (s : Stack) : Stack := mkStack (items s).

(** ** Validator *)

(** The [switch atom] of [Valid]: a [Number] falls to the default case. *)
Definition valence (atom : Atom) : Z :=
  match atom with
  | Op ADD => 2
  | Op MUL => 2
  | Op DIV => 2
  | Op SQRT => 1
  | Num _ => 0
  end.

(** The [for _, atom := range s.items] loop of [Valid], with [size] as the
    loop-carried variable. *)
Fixpoint validLoop (its : list Atom) (size : Z) : bool :=
  match its with
  | [] => size =? 1
  | atom :: rest =>
      let size := size + (1 - valence atom) in
      if size <=? 0 then false else validLoop rest size
  end.

Definition Valid (s : Stack) : bool := validLoop (items s) 0.

(** ** Evaluator *)

(** [nums.Pop().(Number)] *)
Definition popNumber (nums : Stack) : option (Number * Stack) :=
  '(atom, nums) ← Pop nums;
  x ← asNumber atom;
  Some (x, nums).

(** One iteration of the loop of [Evaluate] once [curr] has been popped. *)
Definition evalAtom (curr : Atom) (nums : Stack) : option Stack :=
  if IsOperator curr then
    match curr with
    | Op ADD =>
        '(x, nums) ← popNumber nums;
        '(y, nums) ← popNumber nums;
        Some (Push (Num (y + x)%float) nums)
    | Op MUL =>
        '(x, nums) ← popNumber nums;
        '(y, nums) ← popNumber nums;
        Some (Push (Num (y * x)%float) nums)
    | Op DIV =>
        '(x, nums) ← popNumber nums;
        '(y, nums) ← popNumber nums;
        Some (Push (Num (y / x)%float) nums)
    | Op SQRT =>
        '(x, nums) ← popNumber nums;
        Some (Push (Num (PrimFloat.sqrt x)) nums)
    | Num _ => Some nums
    end
  else Some (Push curr nums).

(** [for stack.Len() > 0 { curr := stack.Pop(); ... }]: the copy is consumed
    from the front, one atom per iteration. *)
Fixpoint evalLoop (stack : list Atom) (nums : Stack) : option Stack :=
  match stack with
  | [] => Some nums
  | curr :: stack =>
      nums ← evalAtom curr nums;
      evalLoop stack nums
  end.

Definition Evaluate (s : Stack) : option float :=
  let nums := mkStack [] in
  let stack := Copy s in
  nums ← evalLoop (items stack) nums;
  top ← Peek nums;
  asNumber top.

(** ** Text: [strings.Split], [strings.Join] *)

(** [strings.Split(s, sep)] for a one-byte separator: one piece more than
    there are separators, so the empty string splits into one empty piece. *)
Fixpoint Split (s : string) (sep : ascii) : list string :=
  match s with
  | EmptyString => [EmptyString]
  | String c rest =>
      if Ascii.eqb c sep then EmptyString :: Split rest sep
      else
        match Split rest sep with
        | piece :: pieces => String c piece :: pieces
        | [] => [String c EmptyString]
        end
  end.

(** [strings.Join(elems, sep)] *)
Fixpoint Join (elems : list string) (sep : string) : string :=
  match elems with
  | [] => EmptyString
  | [elem] => elem
  | elem :: rest => elem ++ sep ++ Join rest sep
  end.

(** Indexing a slice with an [int]: out of range panics. *)
Definition index {A : Type} (l : list A) (i : Z) : option A :=
  if i <? 0 then None else l !! Z.to_nat i.

(** What [Parse] returns: the stack, or the error built from the offending
    token ([fmt.Errorf("couldn't parse %q: %w", unparsedAtom, err)]); the third
    case is a run-time panic. *)
Inductive ParseOutcome : Set :=
| Parsed (stack : Stack)
| ParseError (token : string)
| ParsePanic.

Section GoLibrary.

(** [strconv.ParseFloat(s, 64)]: [None] when it returns an error. *)
Variable ParseFloat : string → option Number.

(** [fmt.Sprint] applied to a [Number]. *)
Variable Sprint : Number → string.

(** ** Rendering *)

(** The loop of [String]: one piece of text per atom. *)
Fixpoint renderLoop (its : list Atom) (out : list string) : option (list string) :=
  match its with
  | [] => Some out
  | atom :: rest =>
      if IsOperator atom then
        o ← asOperator atom;
        renderLoop rest (out ++ [symbol o])
      else
        n ← asNumber atom;
        renderLoop rest (out ++ [Sprint n])
  end.

(** [func (s *Stack) String() string] *)
Definition StackString (s : Stack) : option string :=
  out ← renderLoop (items s) [];
  Some (Join out " ").

(** ** Parser *)

(** The [switch unparsedAtom] of [Parse]; [None] is the error return. *)
Definition parseAtom (unparsedAtom : string) : option Atom :=
  if String.eqb unparsedAtom "+" then Some (Op ADD)
  else if String.eqb unparsedAtom "*" then Some (Op MUL)
  else if String.eqb unparsedAtom "/" then Some (Op DIV)
  else if String.eqb unparsedAtom "√" then Some (Op SQRT)
  else
    match ParseFloat unparsedAtom with
    | Some num => Some (Num num)
    | None => None
    end.

(** First loop of [Parse]: [inl] carries the token of the error. *)
Fixpoint parseLoop (unparsedAtoms : list string) (parsedAtoms : list Atom)
  : string + list Atom :=
  match unparsedAtoms with
  | [] => inr parsedAtoms
  | unparsedAtom :: rest =>
      match parseAtom unparsedAtom with
      | None => inl unparsedAtom
      | Some parsedAtom => parseLoop rest (parsedAtoms ++ [parsedAtom])
      end
  end.

(** Second loop of [Parse]:
    [for i := range parsedAtoms { stack.Push(parsedAtoms[length-i-1]) }]. *)
Fixpoint pushLoop (range : list Z) (parsedAtoms : list Atom) (length : Z)
    (stack : Stack) : option Stack :=
  match range with
  | [] => Some stack
  | i :: range =>
      atom ← index parsedAtoms (length - i - 1);
      pushLoop range parsedAtoms length (Push atom stack)
  end.

Definition Parse (expression : string) : ParseOutcome :=
  let unparsedAtoms := Split expression " " in
  match parseLoop unparsedAtoms [] with
  | inl unparsedAtom => ParseError unparsedAtom
  | inr parsedAtoms =>
      let stack := mkStack [] in
      let length := Z.of_nat (List.length parsedAtoms) in
      match pushLoop (seqZ 0 length) parsedAtoms length stack with
      | Some stack => Parsed stack
      | None => ParsePanic
      end
  end.

End GoLibrary.

(** ** Machine integers and conversions *)

(** Two's complement wrap-around of Go's 64-bit [int]. *)
Definition wrap64 (z : Z) : Z := (z + 2 ^ 63) mod 2 ^ 64 - 2 ^ 63.

(** The conversion [float64(i)] of an [int]: round to nearest, ties to even. *)
Definition float64_of_int (i : Z) : float :=
  SF2Prim (binary_normalize prec emax i 0 false).

(** ** Pseudorandom draws *)

(** The generator behind [math/rand]: the raw draws still to come. *)
Definition Source : Type := nat → Z.

(** A computation that consumes draws, and may panic. *)
Definition Rand (A : Type) : Type := Source → option (A * Source).

#[local] Instance Rand_ret : MRet Rand := λ A a src, Some (a, src).

#[local] Instance Rand_bind : MBind Rand := λ A B f m src,
  match m src with
  | Some (a, src) => f a src
  | None => None
  end.

(** [rand.Intn(n)]: a value of [[0, n)], and a panic when [n <= 0]. *)
Definition Intn (n : Z) : Rand Z := λ src,
  if n <=? 0 then None else Some (src 0%nat mod n, λ k, src (S k)).

(** A panic of a pure computation, inside [Rand]. *)
Definition orPanic {A : Type} (o : option A) : Rand A := λ src,
  match o with
  | Some a => Some (a, src)
  | None => None
  end.

Definition RandomOperator : Rand Operator :=
  i ← Intn 3;
  orPanic (index [ADD; DIV; MUL] i).

Definition RandomWholeNumber (min max : Z) : Rand Number :=
  r ← Intn (wrap64 (max - min));
  mret (float64_of_int (wrap64 (r + min))).

(** ** Generator *)

(** The [switch] of [generateRecursive]; [lo], [hi] and [len] are its [min],
    [max] and [length].  [length/2] is Go's truncated division.  The
    arguments of a call are evaluated from left to right, which fixes the
    order of the draws. *)
Equations? generateRecursive (lo hi len : Z) : Rand (list Atom)
  by wf (Z.to_nat len) lt :=
generateRecursive lo hi len with Z_lt_dec len 1 := {
  | left _ => mret []
  | right _ with Z.eq_dec len 1 := {
    | left _ =>
        a ← RandomWholeNumber lo hi;
        mret [Num a]
    | right _ with Z.eq_dec len 2 := {
      | left _ =>
          a ← RandomWholeNumber lo hi;
          mret [Num a; Op SQRT]
      | right _ with Z.eq_dec len 3 := {
        | left _ =>
            a ← RandomWholeNumber lo hi;
            b ← RandomWholeNumber lo hi;
            o ← RandomOperator;
            mret [Num a; Num b; Op o]
        | right _ =>
            c ← Intn 4;
            if c =? 0 then
              l ← generateRecursive lo hi (len - 1);
              mret (l ++ [Op SQRT])
            else
              l ← generateRecursive lo hi (len ÷ 2);
              r ← generateRecursive lo hi (len ÷ 2);
              o ← RandomOperator;
              mret (l ++ (r ++ [Op o])) } } } }.
Proof.
  all: try lia.
  all: assert (0 <= len ÷ 2 < len)
    by (split; [apply Z.quot_pos | apply Z.quot_lt]; lia); lia.
Qed.

Definition Generate (length : Z) : Rand Stack :=
  its ← generateRecursive 1 10 length;
  mret (NewStack its).

(** The source that replays a finite list of raw draws, then zeros. *)
Definition replay (raw : list Z) : Source := λ k, nth k raw 0.

(** ** Local improver *)

(** What [Improve] returns: [(improved, value, diff, expression)].  The
    expression returned is the caller's own stack object, whose slice the
    loop overwrites in place: [expression] below is the content of that one
    object as the loop goes. *)
Definition Improved : Set := (bool * float * float * Stack)%type.

(** [for i, atom := range expression.items { ... }] over the indices [range]
    still to visit; [atom] is read when its iteration starts. *)
Fixpoint improveLoop (range : list nat) (expression : Stack)
    (target val diff : float) : option Improved :=
  match range with
  | [] => Some (false, val, diff, expression)
  | i :: range =>
      atom ← items expression !! i;
      if IsOperator atom then improveLoop range expression target val diff
      else
        num ← asNumber atom;
        let expression := mkStack (<[i := Num (num + 1)%float]> (items expression)) in
        newVal ← Evaluate expression;
        let newDiff := PrimFloat.abs (target - newVal)%float in
        if (newDiff <? diff)%float then Some (true, newVal, newDiff, expression)
        else
          let expression := mkStack (<[i := Num num]> (items expression)) in
          improveLoop range expression target val diff
  end.

Definition Improve (expression : Stack) (target val diff : float)
  : option Improved :=
  improveLoop (seq 0 (length (items expression))) expression target val diff.

(** ** Search driver *)

Section SearchDriver.

Variable Sprint : Number → string.

(** [math.Pow10] *)
Variable Pow10 : Z → float.

(** A line written by [fmt.Printf("%f,%f,%s\n", ...)], as its three
    arguments. *)
Definition Match : Type := (float * float * string)%type.

(** One turn of the endless loop of a worker, which captures
    [approximate], [epsilon], [minLength] and [maxLength]: the expression
    it generated and the line it printed, if any. *)
Definition workerTurn (approximate epsilon : float) (minLength maxLength : Z)
  : Rand (Stack * option Match) :=
  n ← Intn (wrap64 (maxLength - minLength));
  expression ← Generate (wrap64 (n + minLength));
  val ← orPanic (Evaluate expression);
  let diff := PrimFloat.abs (approximate - val)%float in
  if (diff <? epsilon)%float then
    text ← orPanic (StackString Sprint expression);
    mret (expression, Some ((diff / epsilon)%float, val, text))
  else mret (expression, None).

(** [Search], as far as one turn of one of its ten workers goes. *)
Definition Search (approximate : float)
    (precision minLength maxLength minNum maxNum : Z)
  : Rand (Stack * option Match) :=
  let epsilon := Pow10 (wrap64 (- precision)) in
  workerTurn approximate epsilon minLength maxLength.

End SearchDriver.

(** ** The validator's scan, as the specification words it *)

(** What an atom adds to the running count: a literal +1, a binary operator
    -1, [SQRT] 0. *)
Definition contribution (atom : Atom) : Z :=
  match atom with
  | Num _ => 1
  | Op SQRT => 0
  | Op ADD | Op MUL | Op DIV => -1
  end.

(** The running count after a sequence of atoms, starting from 0. *)
Definition runningCount (its : list Atom) : Z :=
  foldr (λ atom count, contribution atom + count) 0 its.

(** The count stays strictly positive after every atom and is exactly 1
    after the last one. *)
Definition wellFormed (its : list Atom) : Prop :=
  (∀ k : nat, (1 ≤ k ≤ length its)%nat → 0 < runningCount (take k its))
  ∧ runningCount its = 1.

(** The number of operands an operator takes from the accumulator. *)
Definition arity (atom : Atom) : Z :=
  match atom with
  | Num _ => 0
  | Op SQRT => 1
  | Op ADD | Op MUL | Op DIV => 2
  end.

(** The accumulator holds numbers only. *)
Definition numeric (nums : Stack) : Prop :=
  Forall (λ atom, IsOperator atom = false) (items nums).

(** The size reached by the loop of [Valid], unless it returned early. *)
Fixpoint scan (its : list Atom) (size : Z) : option Z :=
  match its with
  | [] => Some size
  | atom :: rest =>
      let size := size + (1 - valence atom) in
      if size <=? 0 then None else scan rest size
  end.

(** ** The evaluator, as the specification words it *)

(** [y OP x] for a binary operator. *)
Definition applyBinary (o : Operator) (y x : float) : float :=
  match o with
  | ADD => (y + x)%float
  | MUL => (y * x)%float
  | DIV => (y / x)%float
  | SQRT => PrimFloat.sqrt x
  end.

(** The postfix stack machine over an accumulator of numbers: a literal is
    pushed; a binary operator pops the right operand [x], then the left
    operand [y], and pushes [y OP x]; [SQRT] pops one operand and pushes its
    square root; the result is the front of the accumulator at the end. *)
Fixpoint stackMachine (its : list Atom) (acc : list float) : option float :=
  match its with
  | [] => head acc
  | Num v :: rest => stackMachine rest (v :: acc)
  | Op SQRT :: rest =>
      match acc with
      | x :: acc => stackMachine rest (PrimFloat.sqrt x :: acc)
      | [] => None
      end
  | Op o :: rest =>
      match acc with
      | x :: y :: acc => stackMachine rest (applyBinary o y x :: acc)
      | _ => None
      end
  end.

(** ** The parser and the rendering, as the specification words them *)

(** The token is none of the operator symbols [+], [*], [/], [√]. *)
Definition notSymbol (tok : string) : Prop := ∀ o : Operator, tok ≠ symbol o.

(** The token is neither an operator symbol nor the text of a number. *)
Definition refused (ParseFloat : string → option Number) (tok : string) : Prop :=
  notSymbol tok ∧ ParseFloat tok = None.

(** The atom a token stands for: the operator of its symbol, or else the
    number it parses as. *)
Definition reads (ParseFloat : string → option Number) (tok : string)
    (atom : Atom) : Prop :=
  match atom with
  | Op o => tok = symbol o
  | Num x => notSymbol tok ∧ ParseFloat tok = Some x
  end.

(** The text has a leading space, a trailing space, or two spaces in a
    row. *)
Definition straySpace (text : string) : Prop :=
  (∃ rest, text = (" " ++ rest)%string)
  ∨ (∃ pre, text = (pre ++ " ")%string)
  ∨ (∃ pre post, text = (pre ++ "  " ++ post)%string).


(** The text of an atom in [String]. *)
Definition render (Sprint : Number → string) (atom : Atom) : string :=
  match atom with
  | Op o => symbol o
  | Num x => Sprint x
  end.


(** ** Computations on draws *)

(** On every source the computation returns (it does not panic), and what it
    returns satisfies [post]. *)
Definition returns {A : Type} (m : Rand A) (post : A → Prop) : Prop :=
  ∀ src : Source, ∃ a src', m src = Some (a, src') ∧ post a.

(** A literal is a whole number drawn from [[lo, hi)]. *)
Definition wholeIn (lo hi : Z) (atom : Atom) : Prop :=
  match atom with
  | Num x => ∃ k : Z, lo ≤ k < hi ∧ x = float64_of_int k
  | Op _ => True
  end.

(** What [generateRecursive] returns for a length of at least 1: a sequence
    that passes the scan of [Valid], of at least that many atoms, whose
    literals are whole numbers of [[lo, hi)]. *)
Definition generated (lo hi len : Z) (its : list Atom) : Prop :=
  scan its 0 = Some 1
  ∧ len ≤ Z.of_nat (length its)
  ∧ Forall (wholeIn lo hi) its.

(** ** Instances of the library functions, for the examples *)

(** [strconv.ParseFloat] on texts made of decimal digits only (the whole
    numbers); every other text is refused by this instance. *)
Definition parseWhole (s : string) : option Number :=
  match NilZero.uint_of_string s with
  | Some digits =>
      let x := float64_of_int (Z.of_uint digits) in
      if PrimFloat.is_infinity x then None else Some x
  | None => None
  end.

(** The whole number a float stands for, when it is one and is not
    negative. *)
Definition wholeOf (x : float) : option Z :=
  match Prim2SF x with
  | S754_zero false => Some 0
  | S754_finite false m e =>
      if 0 <=? e then Some (Z.pos m * 2 ^ e)
      else if Z.pos m mod 2 ^ (- e) =? 0 then Some (Z.pos m / 2 ^ (- e))
      else None
  | _ => None
  end.

(** [fmt.Sprint] on the whole numbers below [10^21], which it writes with
    their decimal digits; any other number comes out as [NaN] here. *)
Definition sprintWhole (x : Number) : string :=
  match wholeOf x with
  | Some z =>
      if z <? 10 ^ 21 then NilZero.string_of_uint (N.to_uint (Z.to_N z)) else "NaN"
  | None => "NaN"
  end.

(** [math.Pow10] between [10^-31] and [10^31], where it is one entry of its
    table of powers, or 1 divided by one. *)
Definition pow10 (n : Z) : float :=
  if n <? 0 then (1 / float64_of_int (10 ^ (- n)))%float
  else float64_of_int (10 ^ n).

(** ** Example inputs *)

(** [1 2 + 3 4 / * 10 +] *)
Definition sample : Stack :=
  mkStack [Num 1%float; Num 2%float; Op ADD; Num 3%float; Num 4%float;
           Op DIV; Op MUL; Num 10%float; Op ADD].

(** [math.Pi] *)
Definition Pi : float := 0x1.921fb54442d18p+1%float.

(** Raw draws for one turn of a worker. *)
Definition turnDraws : list Z := [3; 1; 1; 5; 7; 2; 4; 6; 1; 8; 3; 0; 2; 5; 1].

(** ** Counting atoms *)

(** How many atoms of a sequence satisfy a test. *)
Fixpoint count (test : Atom → bool) (its : list Atom) : Z :=
  match its with
  | [] => 0
  | atom :: rest => (if test atom then 1 else 0) + count test rest
  end.

Definition isLiteral (atom : Atom) : bool := negb (IsOperator atom).

Definition isBinary (atom : Atom) : bool :=
  match atom with
  | Op ADD | Op MUL | Op DIV => true
  | _ => false
  end.

(** ** Counting spaces *)

(** How many bytes of a text are spaces. *)
Fixpoint spaces (s : string) : nat :=
  match s with
  | EmptyString => 0
  | String c rest => (if Ascii.eqb c " " then 1 else 0) + spaces rest
  end.

(** ** Improving positions *)

(** Adding 1 to the literal at index [i] brings the value strictly closer
    to the target than [diff]. *)
Definition helps (expr : Stack) (target diff : float) (i : nat) : Prop :=
  ∃ num v,
    items expr !! i = Some (Num num)
    ∧ Evaluate (mkStack (<[i := Num (num + 1)%float]> (items expr))) = Some v
    ∧ (PrimFloat.abs (target - v) <? diff)%float = true.

(** ** The earlier version of the engine

    The second part of [main.go] (from its second [package main] on) is an
    earlier version: three operators and no [SQRT], and an [Evaluate] that
    pops from the caller's stack itself instead of a copy. *)

Module Legacy.

Inductive Operator : Set := ADD | DIV | MUL.

Inductive Atom : Set :=
| Op (o : Operator)
| Num (n : Number).

Definition IsOperator (a : Atom) : bool :=
  match a with
  | Op _ => true
  | Num _ => false
  end.

Definition asNumber (a : Atom) : option Number :=
  match a with
  | Num n => Some n
  | Op _ => None
  end.

Record Stack : Set := mkStack { items : list Atom }.

Definition Pop (s : Stack) : option (Atom * Stack) :=
  match items s with
  | [] => None
  | atom :: rest => Some (atom, mkStack rest)
  end.

Definition Len (s : Stack) : Z := Z.of_nat (length (items s)).

Definition Peek (s : Stack) : option Atom :=
  match items s with
  | [] => None
  | atom :: _ => Some atom
  end.

Definition Push (atom : Atom) (s : Stack) : Stack :=
  mkStack ([atom] ++ items s).

(** The [switch atom] of [Valid]. *)
Definition valence (atom : Atom) : Z :=
  match atom with
  | Op ADD => 2
  | Op MUL => 2
  | Op DIV => 2
  | Num _ => 0
  end.

Fixpoint validLoop (its : list Atom) (size : Z) : bool :=
  match its with
  | [] => size =? 1
  | atom :: rest =>
      let size := size + (1 - valence atom) in
      if size <=? 0 then false else validLoop rest size
  end.

Definition Valid (s : Stack) : bool := validLoop (items s) 0.

Definition popNumber (nums : Stack) : option (Number * Stack) :=
  '(atom, nums) ← Pop nums;
  x ← asNumber atom;
  Some (x, nums).

Definition evalAtom (curr : Atom) (nums : Stack) : option Stack :=
  if IsOperator curr then
    match curr with
    | Op ADD =>
        '(x, nums) ← popNumber nums;
        '(y, nums) ← popNumber nums;
        Some (Push (Num (y + x)%float) nums)
    | Op MUL =>
        '(x, nums) ← popNumber nums;
        '(y, nums) ← popNumber nums;
        Some (Push (Num (y * x)%float) nums)
    | Op DIV =>
        '(x, nums) ← popNumber nums;
        '(y, nums) ← popNumber nums;
        Some (Push (Num (y / x)%float) nums)
    | Num _ => Some nums
    end
  else Some (Push curr nums).

(** [for stack.Len() > 0 { curr := stack.Pop(); ... }] on the caller's own
    stack: every iteration pops one atom, so [n] counts the iterations left;
    the loop gives back the stack as it leaves it, and the accumulator. *)
Fixpoint evalLoop (n : nat) (stack nums : Stack) : option (Stack * Stack) :=
  match n with
  | O => Some (stack, nums)
  | S n =>
      '(curr, stack) ← Pop stack;
      nums ← evalAtom curr nums;
      evalLoop n stack nums
  end.

(** The value, and the caller's stack as [Evaluate] leaves it. *)
Definition Evaluate (stack : Stack) : option (float * Stack) :=
  let nums := mkStack [] in
  '(stack, nums) ← evalLoop (length (items stack)) stack nums;
  top ← Peek nums;
  x ← asNumber top;
  Some (x, stack).

Section Parser.

Variable ParseFloat : string → option Number.

Definition parseAtom (unparsedAtom : string) : option Atom :=
  if String.eqb unparsedAtom "+" then Some (Op ADD)
  else if String.eqb unparsedAtom "*" then Some (Op MUL)
  else if String.eqb unparsedAtom "/" then Some (Op DIV)
  else
    match ParseFloat unparsedAtom with
    | Some num => Some (Num num)
    | None => None
    end.

Fixpoint parseLoop (unparsedAtoms : list string) (parsedAtoms : list Atom)
  : string + list Atom :=
  match unparsedAtoms with
  | [] => inr parsedAtoms
  | unparsedAtom :: rest =>
      match parseAtom unparsedAtom with
      | None => inl unparsedAtom
      | Some parsedAtom => parseLoop rest (parsedAtoms ++ [parsedAtom])
      end
  end.

Fixpoint pushLoop (range : list Z) (parsedAtoms : list Atom) (length : Z)
    (stack : Stack) : option Stack :=
  match range with
  | [] => Some stack
  | i :: range =>
      atom ← index parsedAtoms (length - i - 1);
      pushLoop range parsedAtoms length (Push atom stack)
  end.

(** What [Parse] returns: the stack, the token of the error, or a panic. *)
Inductive ParseOutcome : Set :=
| Parsed (stack : Stack)
| ParseError (token : string)
| ParsePanic.

Definition Parse (expression : string) : ParseOutcome :=
  let unparsedAtoms := Split expression " " in
  match parseLoop unparsedAtoms [] with
  | inl unparsedAtom => ParseError unparsedAtom
  | inr parsedAtoms =>
      let stack := mkStack [] in
      let length := Z.of_nat (List.length parsedAtoms) in
      match pushLoop (seqZ 0 length) parsedAtoms length stack with
      | Some stack => Parsed stack
      | None => ParsePanic
      end
  end.

End Parser.

End Legacy.

(** An atom of the earlier version, as an atom of the current one. *)
Definition current (atom : Legacy.Atom) : Atom :=
  match atom with
  | Legacy.Op Legacy.ADD => Op ADD
  | Legacy.Op Legacy.DIV => Op DIV
  | Legacy.Op Legacy.MUL => Op MUL
  | Legacy.Num n => Num n
  end.

Definition currentStack (s : Legacy.Stack) : Stack :=
  mkStack (current <$> Legacy.items s).

(** The outcome of the earlier [Parse], as an outcome of the current one. *)
Definition currentOutcome (r : Legacy.ParseOutcome) : ParseOutcome :=
  match r with
  | Legacy.Parsed stack => Parsed (currentStack stack)
  | Legacy.ParseError token => ParseError token
  | Legacy.ParsePanic => ParsePanic
  end.

(** * Properties *)

(** ** Validator *)

Lemma validLoop_scan its size :
  validLoop its size = match scan its size with Some z => z =? 1 | None => false end.
Proof.
  revert size; induction its as [|atom rest IH]; intros size; simpl; [done|].
  destruct (_ <=? 0); [done | apply IH].
Qed.

Lemma valence_contribution atom : 1 - valence atom = contribution atom.
Proof. by destruct atom as [[]|]. Qed.

Lemma runningCount_app l r : runningCount (l ++ r) = runningCount l + runningCount r.
Proof. induction l as [|a l IH]; simpl; [done | rewrite IH; lia]. Qed.

Lemma scan_app l r size : scan (l ++ r) size = scan l size ≫= scan r.
Proof.
  revert size; induction l as [|a l IH]; intros size; simpl; [done|].
  destruct (_ <=? 0); [done | apply IH].
Qed.

Lemma scan_shift its size z d :
  0 ≤ d → scan its size = Some z → scan its (size + d) = Some (z + d).
Proof.
  intros Hd; revert size; induction its as [|a its IH]; intros size; simpl.
  - congruence.
  - destruct (Z.leb_spec (size + (1 - valence a)) 0); [done|].
    intros Hs. apply IH in Hs.
    destruct (Z.leb_spec (size + d + (1 - valence a)) 0); [lia|].
    by replace (size + d + (1 - valence a)) with (size + (1 - valence a) + d) by lia.
Qed.

Lemma scan_count its size z :
  scan its size = Some z ↔
  (∀ k : nat, (1 ≤ k ≤ length its)%nat → 0 < size + runningCount (take k its))
  ∧ z = size + runningCount its.
Proof.
  revert size; induction its as [|a its IH]; intros size; simpl.
  - split.
    + intros [= <-]. split; [intros k ?; lia | lia].
    + intros [_ ->]. f_equal; lia.
  - rewrite valence_contribution.
    destruct (Z.leb_spec (size + contribution a) 0) as [Hle|Hgt].
    + split; [done|]. intros [Hpos _].
      specialize (Hpos 1%nat ltac:(lia)). simpl in Hpos. lia.
    + rewrite IH. split.
      * intros [Hpos ->]. split; [|lia].
        intros [|k] Hk; [lia|]. simpl.
        destruct k as [|k]; [simpl; lia|].
        specialize (Hpos (S k) ltac:(lia)). lia.
      * intros [Hpos ->]. split; [|lia].
        intros k Hk. specialize (Hpos (S k) ltac:(lia)). simpl in Hpos. lia.
Qed.

Lemma Valid_wellFormed s : Valid s = true ↔ wellFormed (items s).
Proof.
  unfold Valid, wellFormed. rewrite validLoop_scan.
  destruct (scan (items s) 0) as [z|] eqn:Hs.
  - apply scan_count in Hs as [Hpos ->]. rewrite Z.eqb_eq. simpl in *. tauto.
  - split; [done|]. intros [Hpos Hone].
    assert (scan (items s) 0 = Some 1) as Hs'; [|congruence].
    apply scan_count. split; [exact Hpos | lia].
Qed.

(** C2. [Valid] holds exactly when the running count (a literal +1, a binary
    operator -1, [SQRT] 0, from 0) is strictly positive after every atom and
    1 after the last; it is false on the sequence [+] and on the sequence
    [1 2]. *)
Theorem Valid_running_count :
  (∀ s : Stack,
     Valid s = true ↔
     (∀ k : nat, (1 ≤ k ≤ length (items s))%nat →
                 0 < runningCount (take k (items s)))
     ∧ runningCount (items s) = 1)
  ∧ Valid (mkStack [Op ADD]) = false
  ∧ Valid (mkStack [Num 1%float; Num 2%float]) = false.
Proof.
  split; [|split; reflexivity].
  intros s. apply Valid_wellFormed.
Qed.

(** ** Evaluator *)

(** With at least [arity atom] numbers on the accumulator, one iteration
    succeeds and leaves [contribution atom] more of them. *)
Lemma evalAtom_numeric atom nums :
  numeric nums →
  arity atom ≤ Z.of_nat (length (items nums)) →
  ∃ nums', evalAtom atom nums = Some nums' ∧ numeric nums'
    ∧ Z.of_nat (length (items nums'))
      = Z.of_nat (length (items nums)) + contribution atom.
Proof.
  destruct nums as [ns]. unfold numeric; simpl. intros Hnum Hlen.
  destruct atom as [o|x].
  - destruct o; simpl in Hlen;
      (destruct ns as [|[?|x] ns]; [simpl in Hlen; lia | by inversion Hnum |]);
      inversion Hnum as [|?? _ Hnum']; subst.
    4: { eexists; split; [reflexivity|]. split; [by constructor | simpl; lia]. }
    all: destruct ns as [|[?|y] ns]; [simpl in Hlen; lia | by inversion Hnum' |];
      inversion Hnum' as [|?? _ Hnum'']; subst;
      eexists; (split; [reflexivity|]); split; [by constructor | simpl; lia].
  - eexists; split; [reflexivity|]. split; [by constructor | simpl; lia].
Qed.

Lemma arity_contribution atom : arity atom = 1 - contribution atom.
Proof. by destruct atom as [[]|]. Qed.

(** The loop of [Evaluate] runs through any sequence whose running count,
    started from the height of the accumulator, stays positive. *)
Lemma evalLoop_numeric its nums :
  numeric nums →
  (∀ k : nat, (1 ≤ k ≤ length its)%nat →
     0 < Z.of_nat (length (items nums)) + runningCount (take k its)) →
  ∃ nums', evalLoop its nums = Some nums' ∧ numeric nums'
    ∧ Z.of_nat (length (items nums'))
      = Z.of_nat (length (items nums)) + runningCount its.
Proof.
  revert nums; induction its as [|a its IH]; intros nums Hnum Hpos; simpl.
  - exists nums. split; [done|]. split; [done | lia].
  - destruct (evalAtom_numeric a nums Hnum) as (nums1 & -> & Hnum1 & Hlen1).
    { specialize (Hpos 1%nat ltac:(simpl; lia)). simpl in Hpos.
      rewrite arity_contribution. lia. }
    simpl. destruct (IH nums1 Hnum1) as (nums' & -> & Hnum' & Hlen').
    { intros k Hk. specialize (Hpos (S k) ltac:(simpl; lia)). simpl in Hpos. lia. }
    exists nums'. split; [done|]. split; [done | lia].
Qed.

Lemma wellFormed_prefix pre atom post :
  wellFormed (pre ++ atom :: post) →
  (∀ k : nat, (1 ≤ k ≤ length pre)%nat → 0 < runningCount (take k pre))
  ∧ 0 < runningCount pre + contribution atom.
Proof.
  intros [Hpos _]. split.
  - intros k Hk. specialize (Hpos k). rewrite take_app_le in Hpos by lia.
    apply Hpos. rewrite length_app. lia.
  - specialize (Hpos (S (length pre))).
    replace (take (S (length pre)) (pre ++ atom :: post)) with (pre ++ [atom]) in Hpos.
    + rewrite runningCount_app in Hpos. simpl in Hpos.
      rewrite length_app in Hpos. simpl in Hpos. lia.
    + rewrite (cons_middle atom pre post), app_assoc.
      rewrite take_app_length'; [done|]. rewrite length_app; simpl; lia.
Qed.

Lemma numeric_nil : numeric (mkStack []).
Proof. constructor. Qed.

(** On a valid stack the loop of [Evaluate] ends with one number. *)
Lemma evalLoop_Valid s :
  Valid s = true →
  ∃ nums, evalLoop (items s) (mkStack []) = Some nums
    ∧ numeric nums ∧ length (items nums) = 1%nat.
Proof.
  intros [Hpos Hone]%Valid_wellFormed.
  destruct (evalLoop_numeric (items s) (mkStack []) numeric_nil)
    as (nums & ? & ? & Hlen).
  - intros k Hk. simpl. specialize (Hpos k Hk). lia.
  - exists nums. simpl in Hlen. repeat split; [done..|lia].
Qed.

Lemma Evaluate_Valid s : Valid s = true → ∃ v, Evaluate s = Some v.
Proof.
  intros (nums & Hrun & Hnum & Hlen)%evalLoop_Valid.
  unfold Evaluate, Copy. simpl. rewrite Hrun. simpl.
  destruct nums as [[|[o|v] ns]]; simpl in *; [lia | | by exists v].
  inversion Hnum; done.
Qed.

(** C3. On a stack that satisfies [Valid], [Evaluate] returns a value: no
    pop or peek meets an empty accumulator.  Whenever the loop reaches an
    atom, the accumulator holds numbers only, and at least as many as the
    arity of that atom, so the iteration succeeds; when the loop ends the
    accumulator is not empty. *)
Theorem Evaluate_safe (s : Stack) :
  Valid s = true →
  (∃ v, Evaluate s = Some v)
  ∧ (∀ pre atom post, items s = pre ++ atom :: post →
       ∃ nums, evalLoop pre (mkStack []) = Some nums
         ∧ numeric nums
         ∧ arity atom ≤ Z.of_nat (length (items nums))
         ∧ ∃ nums', evalAtom atom nums = Some nums')
  ∧ (∃ nums, evalLoop (items s) (mkStack []) = Some nums
       ∧ length (items nums) = 1%nat).
Proof.
  intros Hvalid. split; [by apply Evaluate_Valid|]. split.
  - apply Valid_wellFormed in Hvalid.
    intros pre atom post Heq. rewrite Heq in Hvalid.
    apply wellFormed_prefix in Hvalid as [Hpos Hatom].
    destruct (evalLoop_numeric pre (mkStack []) numeric_nil)
      as (nums0 & Hrun0 & Hnum0 & Hlen0).
    { intros k Hk. simpl. specialize (Hpos k Hk). lia. }
    simpl in Hlen0.
    assert (arity atom ≤ Z.of_nat (length (items nums0))) as Har
      by (rewrite arity_contribution; lia).
    exists nums0. repeat split; [done..|].
    destruct (evalAtom_numeric atom nums0 Hnum0 Har) as (nums' & ? & _). by exists nums'.
  - destruct (evalLoop_Valid s Hvalid) as (nums & ? & _ & ?). by exists nums.
Qed.

Lemma Evaluate_safe_witness :
  Valid sample = true ∧ ∃ v, Evaluate sample = Some v.
Proof.
  split; [reflexivity|].
  apply (Evaluate_safe sample). reflexivity.
Defined.

(** The accumulator of [Evaluate] is the accumulator of the stack machine,
    each number wrapped as an atom. *)
Lemma evalLoop_stackMachine its acc :
  (nums ← evalLoop its (mkStack (Num <$> acc)); top ← Peek nums; asNumber top)
  = stackMachine its acc.
Proof.
  revert acc; induction its as [|a its IH]; intros acc.
  - by destruct acc.
  - destruct a as [o|v].
    + destruct o, acc as [|x [|y acc]]; try reflexivity; cbn;
        match goal with |- _ = stackMachine _ ?acc' => exact (IH acc') end.
    + apply (IH (v :: acc)).
Qed.

Lemma Evaluate_stackMachine s : Evaluate s = stackMachine (items s) [].
Proof. apply (evalLoop_stackMachine (items s) []). Qed.

(** ** Parser *)

Section ParserFacts.

Variable ParseFloat : string → option Number.

(** The atoms a successful first loop appends, token by token. *)
Lemma parseLoop_inr toks acc atoms :
  parseLoop ParseFloat toks acc = inr atoms ↔
  ∃ new, Forall2 (λ tok a, parseAtom ParseFloat tok = Some a) toks new
         ∧ atoms = acc ++ new.
Proof.
  revert acc; induction toks as [|tok toks IH]; intros acc; simpl.
  - split.
    + intros [= <-]. exists []. split; [constructor | by rewrite app_nil_r].
    + intros (new & Hall & ->). inversion Hall. by rewrite app_nil_r.
  - destruct (parseAtom ParseFloat tok) as [a|] eqn:Ha.
    + rewrite IH. split.
      * intros (new & Hall & ->). exists (a :: new).
        split; [by constructor | by rewrite <- app_assoc].
      * intros (new & Hall & ->). inversion Hall as [|? b ? new' Hb Hall']; subst.
        exists new'. split; [done|]. rewrite <- app_assoc.
        simpl. congruence.
    + split; [done|]. intros (new & Hall & _). inversion Hall; congruence.
Qed.

(** The token of a failed first loop is the first one that is refused. *)
Lemma parseLoop_inl toks acc tok :
  parseLoop ParseFloat toks acc = inl tok ↔
  ∃ pre post, toks = pre ++ tok :: post
    ∧ Forall (λ t, parseAtom ParseFloat t ≠ None) pre
    ∧ parseAtom ParseFloat tok = None.
Proof.
  revert acc; induction toks as [|t toks IH]; intros acc; simpl.
  - split; [done|]. intros (pre & post & Heq & _). by destruct pre.
  - destruct (parseAtom ParseFloat t) as [a|] eqn:Ha.
    + rewrite IH. split.
      * intros (pre & post & -> & Hpre & Htok). exists (t :: pre), post.
        split; [done|]. split; [constructor; [congruence | done] | done].
      * intros (pre & post & Heq & Hpre & Htok).
        destruct pre as [|t' pre]; simpl in Heq; injection Heq as <- ->.
        -- congruence.
        -- inversion Hpre; subst. by exists pre, post.
    + split.
      * intros [= <-]. exists [], toks. by repeat split.
      * intros (pre & post & Heq & Hpre & Htok).
        destruct pre as [|t' pre]; simpl in Heq; injection Heq as <- ->; [done|].
        inversion Hpre; congruence.
Qed.

(** The second loop of [Parse] rebuilds the parsed atoms in their order. *)
Lemma pushLoop_drop atoms (m k : nat) :
  (k + m)%nat = length atoms →
  pushLoop (seqZ (Z.of_nat k) (Z.of_nat m)) atoms (Z.of_nat (length atoms))
    (mkStack (drop (length atoms - k) atoms))
  = Some (mkStack atoms).
Proof.
  revert k; induction m as [|m IH]; intros k Hlen.
  - simpl. replace (length atoms - k)%nat with 0%nat by lia. by destruct atoms.
  - rewrite Nat2Z.inj_succ, seqZ_cons by lia. simpl.
    unfold index. destruct (Z.ltb_spec (Z.of_nat (length atoms) - Z.of_nat k - 1) 0); [lia|].
    replace (Z.to_nat (Z.of_nat (length atoms) - Z.of_nat k - 1))
      with (length atoms - S k)%nat by lia.
    destruct (lookup_lt_is_Some_2 atoms (length atoms - S k)%nat ltac:(lia))
      as [a Ha].
    rewrite Ha. simpl. unfold Push. simpl.
    replace (Z.succ (Z.of_nat k)) with (Z.of_nat (S k)) by lia.
    replace (Z.pred (Z.succ (Z.of_nat m))) with (Z.of_nat m) by lia.
    rewrite <- (IH (S k)) by lia. do 3 f_equal.
    rewrite (drop_S atoms a (length atoms - S k)) by done.
    do 2 f_equal. lia.
Qed.

Lemma Parse_Parsed text atoms :
  Forall2 (λ tok a, parseAtom ParseFloat tok = Some a) (Split text " ") atoms →
  Parse ParseFloat text = Parsed (mkStack atoms).
Proof.
  intros Hall. unfold Parse.
  assert (parseLoop ParseFloat (Split text " ") [] = inr atoms) as ->
    by (apply parseLoop_inr; by exists atoms).
  pose proof (pushLoop_drop atoms (length atoms) 0 ltac:(lia)) as Hpush.
  rewrite Nat.sub_0_r, drop_all in Hpush. change (Z.of_nat 0) with 0 in Hpush.
  cbv zeta. by rewrite Hpush.
Qed.

Lemma Parse_outcome text :
  match parseLoop ParseFloat (Split text " ") [] with
  | inl tok => Parse ParseFloat text = ParseError tok
  | inr atoms => Parse ParseFloat text = Parsed (mkStack atoms)
  end.
Proof.
  destruct (parseLoop ParseFloat (Split text " ") []) as [tok|atoms] eqn:Hloop.
  - unfold Parse. by rewrite Hloop.
  - apply Parse_Parsed. apply parseLoop_inr in Hloop as (new & Hall & ->). done.
Qed.

End ParserFacts.

(** C4. [Evaluate] is the postfix stack machine in which a binary operator
    pops the right operand [x] first and the left operand [y] second and
    pushes [y OP x] (so [/] computes [y / x]) and [SQRT] pops one operand and
    pushes its square root; with a [ParseFloat] that reads [1], [2], [3],
    [4] and [10] as these numbers, [Evaluate] of the parse of
    [1 2 + 3 4 / * 10 +] is 12.25. *)
Theorem Evaluate_postfix (ParseFloat : string → option Number) :
  ParseFloat "1" = Some 1%float →
  ParseFloat "2" = Some 2%float →
  ParseFloat "3" = Some 3%float →
  ParseFloat "4" = Some 4%float →
  ParseFloat "10" = Some 10%float →
  (∀ s : Stack, Evaluate s = stackMachine (items s) [])
  ∧ (∀ (x y : float) (rest : list Atom) (acc : list Atom),
       evalLoop (Op DIV :: rest) (mkStack (Num x :: Num y :: acc))
       = evalLoop rest (mkStack (Num (y / x)%float :: acc)))
  ∧ ∃ stack, Parse ParseFloat "1 2 + 3 4 / * 10 +" = Parsed stack
      ∧ Evaluate stack = Some 12.25%float.
Proof.
  intros H1 H2 H3 H4 H10. split; [apply Evaluate_stackMachine|]. split; [done|].
  exists sample. split; [|reflexivity].
  apply Parse_Parsed. unfold sample.
  repeat constructor; unfold parseAtom; simpl;
    first [ reflexivity | by rewrite H1 | by rewrite H2 | by rewrite H3
          | by rewrite H4 | by rewrite H10 ].
Qed.

Lemma Evaluate_postfix_witness :
  parseWhole "1" = Some 1%float
  ∧ parseWhole "2" = Some 2%float
  ∧ parseWhole "3" = Some 3%float
  ∧ parseWhole "4" = Some 4%float
  ∧ parseWhole "10" = Some 10%float
  ∧ ∃ stack, Parse parseWhole "1 2 + 3 4 / * 10 +" = Parsed stack
      ∧ Evaluate stack = Some 12.25%float.
Proof.
  do 5 (split; [reflexivity|]).
  apply (Evaluate_postfix parseWhole); reflexivity.
Defined.

(** ** Text *)

(** What follows a separator is split on its own. *)
Lemma Split_app_sep pre post sep :
  ∃ first, first ≠ []
    ∧ Split (pre ++ String sep post)%string sep = first ++ Split post sep.
Proof.
  induction pre as [|c pre (first & Hne & IH)]; simpl.
  - exists [EmptyString]. split; [done|]. by rewrite Ascii.eqb_refl.
  - rewrite IH. destruct (Ascii.eqb c sep).
    + by exists (EmptyString :: first).
    + destruct first as [|piece first]; [done|]. by exists (String c piece :: first).
Qed.




Lemma Split_straySpace text :
  straySpace text → EmptyString ∈ Split text " ".
Proof.
  intros [(rest & ->)|[(pre & ->)|(pre & post & ->)]].
  - simpl. apply list_elem_of_here.
  - destruct (Split_app_sep pre EmptyString " ") as (first & _ & ->).
    apply elem_of_app. right. simpl. apply list_elem_of_here.
  - destruct (Split_app_sep pre (" " ++ post)%string " ") as (first & _ & Heq).
    change (pre ++ "  " ++ post)%string
      with (pre ++ String " " (" " ++ post))%string.
    rewrite Heq. apply elem_of_app. right. simpl. apply list_elem_of_here.
Qed.


Section ParserSpec.

Variable ParseFloat : string → option Number.

Lemma parseAtom_symbol o : parseAtom ParseFloat (symbol o) = Some (Op o).
Proof. by destruct o. Qed.

Lemma parseAtom_notSymbol tok :
  notSymbol tok → parseAtom ParseFloat tok = Num <$> ParseFloat tok.
Proof.
  intros Hns. unfold parseAtom.
  destruct (String.eqb_spec tok "+") as [->|_]; [by destruct (Hns ADD)|].
  destruct (String.eqb_spec tok "*") as [->|_]; [by destruct (Hns MUL)|].
  destruct (String.eqb_spec tok "/") as [->|_]; [by destruct (Hns DIV)|].
  destruct (String.eqb_spec tok "√") as [->|_]; [by destruct (Hns SQRT)|].
  by destruct (ParseFloat tok).
Qed.

Lemma symbol_dec tok : (∃ o, tok = symbol o) ∨ notSymbol tok.
Proof.
  destruct (String.eqb_spec tok "+") as [->|?]; [left; by exists ADD|].
  destruct (String.eqb_spec tok "*") as [->|?]; [left; by exists MUL|].
  destruct (String.eqb_spec tok "/") as [->|?]; [left; by exists DIV|].
  destruct (String.eqb_spec tok "√") as [->|?]; [left; by exists SQRT|].
  right. by intros [].
Qed.

Lemma parseAtom_reads tok atom :
  parseAtom ParseFloat tok = Some atom ↔ reads ParseFloat tok atom.
Proof.
  destruct (symbol_dec tok) as [[o ->]|Hns].
  - rewrite parseAtom_symbol. destruct atom as [o'|x]; simpl.
    + split; [intros [= <-]; done|]. destruct o, o'; done.
    + split; [done|]. intros [Hns _]. by destruct (Hns o).
  - rewrite parseAtom_notSymbol by done. destruct atom as [o|x]; simpl.
    + split; [by destruct (ParseFloat tok) | intros ->; by destruct (Hns o)].
    + destruct (ParseFloat tok); simpl; split; try done.
      * intros [= ->]. done.
      * intros [_ [= ->]]. done.
      * intros [_ ?]. done.
Qed.

Lemma parseAtom_refused tok :
  parseAtom ParseFloat tok = None ↔ refused ParseFloat tok.
Proof.
  unfold refused. destruct (symbol_dec tok) as [[o ->]|Hns].
  - rewrite parseAtom_symbol. split; [done|]. intros [Hns _]. by destruct (Hns o).
  - rewrite parseAtom_notSymbol by done.
    destruct (ParseFloat tok); simpl; split; try done. intros [_ ?]; done.
Qed.

End ParserSpec.

Section ParseOutcomes.

Variable ParseFloat : string → option Number.

Lemma Parse_ParseError text tok :
  Parse ParseFloat text = ParseError tok ↔
  parseLoop ParseFloat (Split text " ") [] = inl tok.
Proof.
  pose proof (Parse_outcome ParseFloat text) as Hout.
  destruct (parseLoop ParseFloat (Split text " ") []) as [t|atoms];
    rewrite Hout; split; congruence.
Qed.

Lemma Parse_Parsed_inr text stack :
  Parse ParseFloat text = Parsed stack ↔
  parseLoop ParseFloat (Split text " ") [] = inr (items stack).
Proof.
  pose proof (Parse_outcome ParseFloat text) as Hout. destruct stack as [its].
  destruct (parseLoop ParseFloat (Split text " ") []) as [t|atoms];
    rewrite Hout; simpl; split; congruence.
Qed.

Lemma Parse_first_refused text tok :
  Parse ParseFloat text = ParseError tok ↔
  ∃ pre post, Split text " " = pre ++ tok :: post
    ∧ Forall (λ t, ¬ refused ParseFloat t) pre
    ∧ refused ParseFloat tok.
Proof.
  rewrite Parse_ParseError, parseLoop_inl.
  split; intros (pre & post & Heq & Hpre & Htok); exists pre, post;
    (split; [done|]); (split; [|by apply parseAtom_refused]);
    eapply Forall_impl; try exact Hpre; simpl; intros t Ht;
    by rewrite <- parseAtom_refused in *.
Qed.

Lemma Parse_some_refused text :
  (∃ tok, Parse ParseFloat text = ParseError tok) ↔
  ∃ tok, tok ∈ Split text " " ∧ refused ParseFloat tok.
Proof.
  split.
  - intros (tok & (pre & post & Heq & _ & Htok)%Parse_first_refused).
    exists tok. split; [|done]. rewrite Heq. apply elem_of_app. right.
    apply list_elem_of_here.
  - intros (tok & Hin & Htok).
    destruct (parseLoop ParseFloat (Split text " ") []) as [t|atoms] eqn:Hloop.
    + exists t. by apply Parse_ParseError.
    + apply parseLoop_inr in Hloop as (new & Hall & _).
      apply list_elem_of_lookup in Hin as [i Hi].
      destruct (Forall2_lookup_l _ _ _ _ _ Hall Hi) as (a & _ & Ha).
      apply parseAtom_refused in Htok. congruence.
Qed.

End ParseOutcomes.

(** C8. [Parse] returns an error exactly when some token of the input, split
    on single spaces, is neither an operator symbol nor the text of a number,
    and the error carries the first such token; with a [ParseFloat] that
    refuses the empty text, an input with a leading space, a trailing space
    or two spaces in a row is an error; on success the atoms of the stack,
    front to back, are what the tokens read as, left to right; [Parse] never
    panics. *)
Theorem Parse_errors (ParseFloat : string → option Number) (text : string) :
  ParseFloat "" = None →
  ((∃ tok, Parse ParseFloat text = ParseError tok) ↔
   ∃ tok, tok ∈ Split text " " ∧ refused ParseFloat tok)
  ∧ (∀ tok, Parse ParseFloat text = ParseError tok ↔
       ∃ pre post, Split text " " = pre ++ tok :: post
         ∧ Forall (λ t, ¬ refused ParseFloat t) pre
         ∧ refused ParseFloat tok)
  ∧ (straySpace text → ∃ tok, Parse ParseFloat text = ParseError tok)
  ∧ (∀ stack, Parse ParseFloat text = Parsed stack ↔
       Forall2 (reads ParseFloat) (Split text " ") (items stack))
  ∧ Parse ParseFloat text ≠ ParsePanic.
Proof.
  intros Hempty. split; [apply Parse_some_refused|].
  split; [apply Parse_first_refused|]. split; [|split].
  - intros Hstray%Split_straySpace. apply Parse_some_refused.
    exists EmptyString. split; [done|]. split; [by intros []|done].
  - intros stack. rewrite Parse_Parsed_inr, parseLoop_inr. split.
    + intros (new & Hall & ->). simpl.
      eapply Forall2_impl; [exact Hall|]. intros tok a. apply parseAtom_reads.
    + intros Hall. exists (items stack). split; [|done].
      eapply Forall2_impl; [exact Hall|]. intros tok a. apply parseAtom_reads.
  - pose proof (Parse_outcome ParseFloat text) as Hout.
    destruct (parseLoop ParseFloat (Split text " ") []); congruence.
Qed.

Lemma Parse_errors_witness :
  parseWhole "" = None
  ∧ (straySpace "1  2" → ∃ tok, Parse parseWhole "1  2" = ParseError tok).
Proof.
  split; [reflexivity|].
  apply (Parse_errors parseWhole "1  2"). reflexivity.
Defined.

(** ** Rendering and the round trip *)

Section RoundTrip.

Variable ParseFloat : string → option Number.
Variable Sprint : Number → string.

Lemma renderLoop_render its out :
  renderLoop Sprint its out = Some (out ++ (render Sprint <$> its)).
Proof.
  revert out; induction its as [|a its IH]; intros out; simpl.
  - by rewrite app_nil_r.
  - destruct a as [o|x]; simpl; rewrite IH; by rewrite <- app_assoc.
Qed.

Lemma StackString_render s :
  StackString Sprint s = Some (Join (render Sprint <$> items s) " ").
Proof. unfold StackString. by rewrite renderLoop_render. Qed.


End RoundTrip.

Lemma Valid_nonempty s : Valid s = true → items s ≠ [].
Proof. destruct s as [[|a its]]; [done|done]. Qed.





(** ** Pseudorandom draws *)

Lemma returns_ret {A : Type} (a : A) (post : A → Prop) :
  post a → returns (mret a) post.
Proof. intros Ha src. by exists a, src. Qed.

Lemma returns_bind {A B : Type} (m : Rand A) (f : A → Rand B)
    (mid : A → Prop) (post : B → Prop) :
  returns m mid → (∀ a, mid a → returns (f a) post) → returns (m ≫= f) post.
Proof.
  intros Hm Hf src. destruct (Hm src) as (a & src1 & Heq & Ha).
  destruct (Hf a Ha src1) as (b & src2 & Heq' & Hb).
  exists b, src2. split; [|done].
  unfold mbind, Rand_bind. by rewrite Heq.
Qed.

Lemma returns_impl {A : Type} (m : Rand A) (post post' : A → Prop) :
  returns m post → (∀ a, post a → post' a) → returns m post'.
Proof.
  intros Hm Himpl src. destruct (Hm src) as (a & src' & ? & ?).
  exists a, src'. auto.
Qed.

Lemma returns_Intn n : 0 < n → returns (Intn n) (λ r, 0 ≤ r < n).
Proof.
  intros Hn src. unfold Intn. destruct (Z.leb_spec n 0); [lia|].
  eexists _, _. split; [done|]. by apply Z.mod_pos_bound.
Qed.

Lemma returns_orPanic {A : Type} (a : A) : returns (orPanic (Some a)) (λ b, b = a).
Proof. intros src. by exists a, src. Qed.

Lemma returns_RandomOperator : returns RandomOperator (λ o, o ≠ SQRT).
Proof.
  eapply returns_bind; [apply (returns_Intn 3); lia|].
  intros r Hr. simpl in Hr.
  assert (r = 0 ∨ r = 1 ∨ r = 2) as [-> | [-> | ->]] by lia;
    (eapply returns_impl; [apply returns_orPanic|]); by intros ? ->.
Qed.

(** Machine bounds as numerals, for [lia]. *)
Ltac bounds :=
  change (2 ^ 62) with 4611686018427387904 in *;
  change (2 ^ 63) with 9223372036854775808 in *;
  change (2 ^ 64) with 18446744073709551616 in *.

Lemma wrap64_small z : - 2 ^ 63 ≤ z < 2 ^ 63 → wrap64 z = z.
Proof. intros Hz. unfold wrap64. bounds. rewrite Z.mod_small; lia. Qed.

Lemma returns_RandomWholeNumber lo hi :
  - 2 ^ 62 ≤ lo → lo < hi → hi < 2 ^ 62 →
  returns (RandomWholeNumber lo hi) (λ x, wholeIn lo hi (Num x)).
Proof.
  intros Hlo Hlt Hhi. unfold RandomWholeNumber.
  rewrite (wrap64_small (hi - lo)) by (bounds; lia).
  eapply returns_bind; [apply returns_Intn; lia|].
  intros r Hr. simpl in Hr. apply returns_ret. simpl.
  exists (r + lo). rewrite wrap64_small by (bounds; lia). split; [lia | done].
Qed.

(** ** Generator *)

Lemma scan_valid_unary its : scan its 0 = Some 1 → scan (its ++ [Op SQRT]) 0 = Some 1.
Proof. intros Hs. rewrite scan_app, Hs. reflexivity. Qed.

Lemma scan_valid_binary l r o :
  o ≠ SQRT → scan l 0 = Some 1 → scan r 0 = Some 1 →
  scan (l ++ (r ++ [Op o])) 0 = Some 1.
Proof.
  intros Ho Hl Hr. rewrite scan_app, Hl.
  apply (scan_shift _ _ _ 1) in Hr; [|lia].
  change (scan r 1 = Some 2) in Hr.
  change (scan (r ++ [Op o]) 1 = Some 1). rewrite scan_app, Hr. by destruct o.
Qed.

Lemma generateRecursive_generated lo hi len :
  - 2 ^ 62 ≤ lo → lo < hi → hi < 2 ^ 62 → 1 ≤ len →
  returns (generateRecursive lo hi len) (generated lo hi len).
Proof.
  funelim (generateRecursive lo hi len); intros Hlo Hlt Hhi Hlen; try lia.
  - eapply returns_bind; [by apply returns_RandomWholeNumber|].
    intros a Ha. apply returns_ret. repeat split; [simpl; lia|].
    by repeat constructor.
  - eapply returns_bind; [by apply returns_RandomWholeNumber|].
    intros a Ha. apply returns_ret. repeat split; [simpl; lia|].
    by repeat constructor.
  - eapply returns_bind; [by apply returns_RandomWholeNumber|]. intros a Ha.
    eapply returns_bind; [by apply returns_RandomWholeNumber|]. intros b Hb.
    eapply returns_bind; [apply returns_RandomOperator|]. intros o Ho.
    apply returns_ret. repeat split; [by destruct o | simpl; lia |].
    by repeat constructor.
  - eapply returns_bind; [apply (returns_Intn 4); lia|]. intros c Hc.
    assert (2 ≤ len ÷ 2 ∧ len - 1 ≤ 2 * (len ÷ 2)) as [Hhalf Hdouble].
    { rewrite Z.quot_div_nonneg by lia. split; [apply Z.div_le_lower_bound; lia|].
      pose proof (Z.div_mod len 2 ltac:(lia)).
      pose proof (Z.mod_pos_bound len 2 ltac:(lia)). lia. }
    destruct (c =? 0).
    + eapply returns_bind; [apply H; [exact c | exact (λ _, 0) | ..]; lia|].
      intros l (Hl & Hlen' & Hlit). apply returns_ret. split; [|split].
      * by apply scan_valid_unary.
      * rewrite length_app. simpl. lia.
      * apply Forall_app. split; [done | by repeat constructor].
    + eapply returns_bind; [apply H1; [exact c | exact (λ _, 0) | ..]; lia|].
      intros l (Hl & Hlenl & Hlitl).
      eapply returns_bind; [apply H0; [exact c | exact l | exact (λ _, 0) | ..]; lia|].
      intros r (Hr & Hlenr & Hlitr).
      eapply returns_bind; [apply returns_RandomOperator|]. intros o Ho.
      apply returns_ret. split; [|split].
      * by apply scan_valid_binary.
      * rewrite !length_app. simpl. lia.
      * rewrite !Forall_app. repeat split; try done. by repeat constructor.
Qed.

Lemma generated_Valid lo hi len its : generated lo hi len its → Valid (mkStack its) = true.
Proof. intros (Hscan & _). unfold Valid. simpl. by rewrite validLoop_scan, Hscan. Qed.

Lemma Generate_generated len :
  1 ≤ len → returns (Generate len) (λ s, generated 1 10 len (items s)).
Proof.
  intros Hlen. eapply returns_bind.
  - apply generateRecursive_generated; [bounds; lia | lia | bounds; lia | done].
  - intros its Hits. by apply returns_ret.
Qed.

(** The [default] case of [generateRecursive]. *)
Lemma generateRecursive_default lo hi len :
  3 < len →
  generateRecursive lo hi len =
  (c ← Intn 4;
   if c =? 0 then
     l ← generateRecursive lo hi (len - 1);
     mret (l ++ [Op SQRT])
   else
     l ← generateRecursive lo hi (len ÷ 2);
     r ← generateRecursive lo hi (len ÷ 2);
     o ← RandomOperator;
     mret (l ++ (r ++ [Op o]))).
Proof.
  intros Hlen. rewrite generateRecursive_equation_1.
  destruct (Z_lt_dec len 1); [lia|]. simpl.
  destruct (Z.eq_dec len 1); [lia|]. simpl.
  destruct (Z.eq_dec len 2); [lia|]. simpl.
  destruct (Z.eq_dec len 3); [lia|]. reflexivity.
Qed.

(** For a length of 1, 2 or 3 the count of atoms is the length. *)
Lemma generateRecursive_small lo hi len :
  - 2 ^ 62 ≤ lo → lo < hi → hi < 2 ^ 62 → 1 ≤ len ≤ 3 →
  returns (generateRecursive lo hi len)
    (λ its, generated lo hi len its ∧ Z.of_nat (length its) = len).
Proof.
  intros Hlo Hlt Hhi Hlen src.
  destruct (generateRecursive_generated lo hi len Hlo Hlt Hhi ltac:(lia) src)
    as (its & src' & Heq & Hgen).
  exists its, src'. split; [done|]. split; [done|].
  revert Heq. rewrite generateRecursive_equation_1.
  destruct (Z_lt_dec len 1); [lia|]. simpl.
  destruct (Z.eq_dec len 1); simpl.
  { unfold mbind, Rand_bind. destruct (RandomWholeNumber lo hi src) as [[a ?]|];
      [intros [= <- _]; simpl; lia | done]. }
  destruct (Z.eq_dec len 2); simpl.
  { unfold mbind, Rand_bind. destruct (RandomWholeNumber lo hi src) as [[a ?]|];
      [intros [= <- _]; simpl; lia | done]. }
  destruct (Z.eq_dec len 3); [|lia]. simpl.
  unfold mbind, Rand_bind.
  destruct (RandomWholeNumber lo hi src) as [[a src1]|]; [|done].
  destruct (RandomWholeNumber lo hi src1) as [[b src2]|]; [|done].
  destruct (RandomOperator src2) as [[o src3]|]; [|done].
  intros [= <- _]; simpl; lia.
Qed.

(** The split branch: the first draw is not a multiple of 4. *)
Lemma Generate_split len src :
  3 < len → src 0%nat mod 4 ≠ 0 →
  ∃ l r o src',
    Generate len src = Some (mkStack (l ++ (r ++ [Op o])), src')
    ∧ generated 1 10 (len ÷ 2) l ∧ generated 1 10 (len ÷ 2) r
    ∧ (len ÷ 2 ≤ 3 →
       Z.of_nat (length l) = len ÷ 2 ∧ Z.of_nat (length r) = len ÷ 2).
Proof.
  intros Hlen Hdraw.
  assert (2 ≤ len ÷ 2) as Hhalf
    by (rewrite Z.quot_div_nonneg by lia; apply Z.div_le_lower_bound; lia).
  assert (∀ src0, ∃ its src',
            generateRecursive 1 10 (len ÷ 2) src0 = Some (its, src')
            ∧ generated 1 10 (len ÷ 2) its
            ∧ (len ÷ 2 ≤ 3 → Z.of_nat (length its) = len ÷ 2)) as Hhalves.
  { intros src0. destruct (Z_le_dec (len ÷ 2) 3) as [Hsmall|Hbig].
    - destruct (generateRecursive_small 1 10 (len ÷ 2)
                  ltac:(bounds; lia) ltac:(lia) ltac:(bounds; lia) ltac:(lia) src0)
        as (its & src' & ? & ? & ?). by exists its, src'.
    - destruct (generateRecursive_generated 1 10 (len ÷ 2)
                  ltac:(bounds; lia) ltac:(lia) ltac:(bounds; lia) ltac:(lia) src0)
        as (its & src' & ? & ?). exists its, src'.
      split; [done|]. split; [done|]. intros; lia. }
  unfold Generate. rewrite generateRecursive_default by done.
  unfold mbind at 1 2, Rand_bind at 1 2. unfold Intn at 1.
  change (4 <=? 0) with false. cbv iota beta.
  apply Z.eqb_neq in Hdraw. rewrite Hdraw.
  unfold mbind at 1, Rand_bind at 1.
  destruct (Hhalves (λ k, src (S k))) as (l & src1 & -> & Hl & Hlenl).
  unfold mbind at 1, Rand_bind at 1.
  destruct (Hhalves src1) as (r & src2 & -> & Hr & Hlenr).
  unfold mbind at 1, Rand_bind at 1.
  destruct (returns_RandomOperator src2) as (o & src3 & -> & _).
  exists l, r, o, src3. split; [done|]. split; [done|]. split; [done|].
  intros Hsmall. split; auto.
Qed.

(** C1. For every length of at least 1 and every sequence of draws,
    [Generate] returns a stack, and the stack satisfies [Valid]. *)
Theorem Generate_Valid (length : Z) (src : Source) :
  1 ≤ length →
  ∃ s src', Generate length src = Some (s, src') ∧ Valid s = true.
Proof.
  intros Hlen. destruct (Generate_generated length Hlen src) as (s & src' & Heq & Hgen).
  exists s, src'. split; [done|]. destruct s as [its]. by eapply generated_Valid.
Qed.

Lemma Generate_Valid_witness :
  1 ≤ 7
  ∧ ∃ s src', Generate 7 (replay [2; 3; 0; 5; 8; 13; 21]) = Some (s, src')
      ∧ Valid s = true.
Proof.
  split; [lia|]. apply (Generate_Valid 7). lia.
Defined.

(** C9, as stated, fails: no sequence of draws makes [Generate(5)] return
    fewer than 5 atoms. *)
Lemma Generate_5_not_shorter :
  ¬ ∃ (src : Source) s src',
      Generate 5 src = Some (s, src') ∧ Len s < 5.
Proof.
  intros (src & s & src' & Heq & Hlen).
  destruct (Generate_generated 5 ltac:(lia) src) as (s0 & src0 & Heq0 & _ & Hlen0 & _).
  rewrite Heq in Heq0. injection Heq0 as <- _. unfold Len in Hlen. lia.
Qed.

(** C9, amended. The count of atoms may differ from the requested length,
    by exceeding it only: for some sequence of draws [Generate(5)] returns 6
    atoms, and for every sequence it returns at least 5. *)
Theorem Generate_length_differs :
  (∃ (src : Source) s src', Generate 5 src = Some (s, src') ∧ Len s = 6)
  ∧ (∀ src : Source, ∃ s src', Generate 5 src = Some (s, src') ∧ 5 ≤ Len s).
Proof.
  split.
  - exists (replay [0; 1; 3; 4; 5]). eexists _, _. split; [vm_compute; reflexivity|].
    reflexivity.
  - intros src.
    destruct (Generate_generated 5 ltac:(lia) src) as (s & src' & Heq & _ & Hlen & _).
    by exists s, src'.
Qed.

(** C10, as stated, fails: the split branch at the even length 8 can return
    11 atoms, not 9. *)
Lemma Generate_split_not_exact :
  ¬ ∀ (n : Z) (src : Source) s src',
      3 < n → Z.even n = true → src 0%nat mod 4 ≠ 0 →
      Generate n src = Some (s, src') → Len s = n + 1.
Proof.
  intros Hall.
  pose (raw := [1; 1; 3; 4; 5; 1; 6; 7; 8]).
  destruct (Generate 8 (replay raw)) as [[s src']|] eqn:Heq; [|by vm_compute in Heq].
  specialize (Hall 8 (replay raw) s src' ltac:(lia) eq_refl ltac:(by vm_compute) Heq).
  vm_compute in Heq. injection Heq as <- _. by vm_compute in Hall.
Qed.

(** C10, amended. For every length [n] of at least 1 and every sequence of
    draws, [Generate(n)] returns at least [n] atoms; the split branch at an
    even [n > 3] returns at least [n + 1] atoms, and exactly [n + 1] when
    [n] is 4 or 6. *)
Theorem Generate_length (n : Z) (src : Source) :
  1 ≤ n →
  ∃ s src', Generate n src = Some (s, src')
    ∧ n ≤ Len s
    ∧ (3 < n → Z.even n = true → src 0%nat mod 4 ≠ 0 →
       n + 1 ≤ Len s ∧ (n ≤ 6 → Len s = n + 1)).
Proof.
  intros Hn.
  destruct (Generate_generated n Hn src) as (s & src' & Heq & _ & Hlen & _).
  exists s, src'. split; [done|]. split; [done|].
  intros Hbig [m ->]%Z.even_spec Hdraw.
  destruct (Generate_split (2 * m) src Hbig Hdraw)
    as (l & r & o & src1 & Heq1 & (_ & Hl & _) & (_ & Hr & _) & Hexact).
  rewrite Heq in Heq1. injection Heq1 as -> _.
  assert ((2 * m) ÷ 2 = m) as Hhalf
    by (rewrite Z.quot_div_nonneg by lia; rewrite Z.mul_comm; apply Z.div_mul; lia).
  rewrite Hhalf in *. unfold Len. simpl. rewrite !length_app. simpl.
  split; [lia|]. intros Hsix. destruct Hexact as [Hl' Hr']; lia.
Qed.

Lemma Generate_length_witness :
  1 ≤ 4
  ∧ ∃ s src', Generate 4 (replay [1; 2; 3; 4]) = Some (s, src')
      ∧ 4 ≤ Len s
      ∧ (3 < 4 → Z.even 4 = true → replay [1; 2; 3; 4] 0%nat mod 4 ≠ 0 →
         4 + 1 ≤ Len s ∧ (4 ≤ 6 → Len s = 4 + 1)).
Proof.
  split; [lia|]. apply (Generate_length 4). lia.
Defined.

(** ** Search driver *)

Section SearchFacts.

Variable Sprint : Number → string.
Variable Pow10 : Z → float.

(** A turn of a worker generates literals of [[1, 10)], whatever it
    captured. *)
Lemma workerTurn_literals approximate epsilon minLength maxLength :
  1 ≤ minLength → minLength < maxLength → maxLength < 2 ^ 62 →
  returns (workerTurn Sprint approximate epsilon minLength maxLength)
    (λ turn, Valid turn.1 = true ∧ Forall (wholeIn 1 10) (items turn.1)).
Proof.
  intros Hmin Hlt Hmax. unfold workerTurn.
  rewrite (wrap64_small (maxLength - minLength)) by (bounds; lia).
  eapply returns_bind; [apply returns_Intn; lia|]. intros n Hn. simpl in Hn.
  rewrite wrap64_small by (bounds; lia).
  eapply returns_bind; [apply Generate_generated; lia|].
  intros [its] Hgen. simpl in Hgen.
  pose proof (generated_Valid _ _ _ _ Hgen) as Hvalid.
  destruct (Evaluate_Valid _ Hvalid) as [val ->].
  eapply returns_bind; [apply returns_orPanic|]. intros ? ->.
  destruct Hgen as (_ & _ & Hlit).
  destruct (_ <? _)%float.
  - rewrite StackString_render.
    eapply returns_bind; [apply returns_orPanic|]. intros ? ->.
    by apply returns_ret.
  - by apply returns_ret.
Qed.

End SearchFacts.

(** C5, what the code does. Whatever [minNum] and [maxNum] are passed to
    [Search], a turn of a worker (for lengths [1 <= minLength < maxLength])
    generates an expression whose literals are whole numbers of [[1, 10)],
    the bounds [Generate] fixes: [minNum] and [maxNum] are never used. *)
Theorem Search_literals (Sprint : Number → string) (Pow10 : Z → float)
    (approximate : float) (precision minLength maxLength minNum maxNum : Z)
    (src : Source) :
  1 ≤ minLength → minLength < maxLength → maxLength < 2 ^ 62 →
  ∃ expression out src',
    Search Sprint Pow10 approximate precision minLength maxLength minNum maxNum src
    = Some (expression, out, src')
    ∧ Forall (wholeIn 1 10) (items expression).
Proof.
  intros Hmin Hlt Hmax. unfold Search.
  destruct (workerTurn_literals Sprint approximate (Pow10 (wrap64 (- precision)))
              minLength maxLength Hmin Hlt Hmax src)
    as ([expression out] & src' & Heq & _ & Hlit).
  by exists expression, out, src'.
Qed.

Lemma Search_literals_witness :
  1 ≤ 10 ∧ 10 < 20 ∧ 20 < 2 ^ 62
  ∧ ∃ expression out src',
      Search sprintWhole pow10 Pi 5 10 20 50 100 (replay turnDraws)
      = Some (expression, out, src')
      ∧ Forall (wholeIn 1 10) (items expression).
Proof.
  split; [lia|]. split; [lia|]. split; [reflexivity|].
  apply (Search_literals sprintWhole pow10 Pi 5 10 20 50 100); [lia | lia | reflexivity].
Defined.

(** C5 at [Search(math.Pi, 5, 10, 20, 50, 100)]: the expression of a turn,
    with its literals below 50. *)
Example Search_below_minNum :
  ∃ src',
    Search sprintWhole pow10 Pi 5 10 20 50 100 (replay turnDraws)
    = Some (mkStack [Num 6; Num 8; Op MUL; Num 5; Num 7; Op DIV; Op MUL;
                     Num 1; Num 3; Op MUL; Num 2; Num 1; Op ADD; Op ADD;
                     Op ADD]%float, None, src').
Proof. eexists. vm_compute. reflexivity. Qed.

(** ** Comparison of floats *)




(** ** Local improver *)

(** On the literals [Generate] writes, adding 1 is exact. *)
Lemma whole_succ k :
  1 ≤ k < 10 → (float64_of_int k + 1)%float = float64_of_int (k + 1).
Proof.
  intros Hk.
  assert (k = 1 ∨ k = 2 ∨ k = 3 ∨ k = 4 ∨ k = 5 ∨ k = 6 ∨ k = 7 ∨ k = 8 ∨ k = 9)
    as Hcases by lia.
  repeat destruct Hcases as [-> | Hcases]; try subst k; reflexivity.
Qed.

(** Overwriting a literal with a literal is invisible to the scan of
    [Valid]. *)
Lemma scan_insert_Num its i num y size :
  its !! i = Some (Num num) → scan (<[i := Num y]> its) size = scan its size.
Proof.
  revert i size; induction its as [|a its IH]; intros [|i] size Hi;
    simpl in *; try done.
  - by injection Hi as ->.
  - destruct (_ <=? 0); [done|]. by apply IH.
Qed.

Lemma Valid_insert_Num s i num y :
  items s !! i = Some (Num num) →
  Valid (mkStack (<[i := Num y]> (items s))) = Valid s.
Proof.
  intros Hi. unfold Valid. simpl. rewrite !validLoop_scan.
  by rewrite (scan_insert_Num _ _ num).
Qed.

(** The result of the loop of [Improve] over the indices [range]. *)
Lemma improveLoop_result range expr target val diff :
  Valid expr = true →
  Forall (λ i, (i < length (items expr))%nat) range →
  ∃ improved newVal newDiff e,
    improveLoop range expr target val diff = Some (improved, newVal, newDiff, e)
    ∧ if improved then
        ∃ i num, items expr !! i = Some (Num num)
          ∧ items e = <[i := Num (num + 1)%float]> (items expr)
          ∧ Evaluate e = Some newVal
          ∧ newDiff = PrimFloat.abs (target - newVal)%float
          ∧ (newDiff <? diff)%float = true
      else e = expr ∧ newVal = val ∧ newDiff = diff.
Proof.
  intros Hvalid. induction range as [|i range IH]; intros Hrange.
  - by exists false, val, diff, expr.
  - inversion Hrange as [|?? Hi Hrange']; subst. simpl.
    destruct (lookup_lt_is_Some_2 _ _ Hi) as [atom Hatom].
    rewrite Hatom. simpl. destruct atom as [o|num]; simpl; [by apply IH|].
    pose proof (Valid_insert_Num expr i num (num + 1)%float Hatom) as Hvalid'.
    rewrite Hvalid in Hvalid'.
    destruct (Evaluate_Valid _ Hvalid') as [newVal HnewVal].
    rewrite HnewVal. simpl.
    destruct (PrimFloat.abs (target - newVal) <? diff)%float eqn:Hlt.
    + exists true, newVal, (PrimFloat.abs (target - newVal)),
        (mkStack (<[i := Num (num + 1)%float]> (items expr))).
      split; [done|]. by exists i, num.
    + rewrite list_insert_insert_eq, list_insert_id by done.
      destruct expr as [its]. by apply IH.
Qed.



(** * Further properties of the code *)

(** ** The validator and the evaluation loop *)

Lemma evalAtom_short atom nums :
  numeric nums → Z.of_nat (length (items nums)) < arity atom →
  evalAtom atom nums = None.
Proof.
  destruct nums as [ns]. unfold numeric; simpl. intros Hnum Hlen.
  destruct atom as [[]|x]; simpl in Hlen;
    destruct ns as [|[?|a] [|[?|b] ns]]; simpl in *; try lia; try done;
    inversion Hnum as [|?? Ha Hnum']; subst; try done;
    inversion Hnum' as [|?? Hb ?]; subst; done.
Qed.

(** The loop of [Evaluate] gets through a sequence exactly when the running
    count, started from the height of the accumulator, stays positive. *)
Lemma evalLoop_positive its nums :
  numeric nums →
  (∃ nums', evalLoop its nums = Some nums') ↔
  (∀ k : nat, (1 ≤ k ≤ length its)%nat →
     0 < Z.of_nat (length (items nums)) + runningCount (take k its)).
Proof.
  intros Hnum. split.
  - revert nums Hnum. induction its as [|a its IH]; intros nums Hnum [nums' Hrun] k Hk;
      simpl in *; [lia|].
    destruct (Z_lt_dec (Z.of_nat (length (items nums))) (arity a)) as [Hshort|Hok].
    { by rewrite (evalAtom_short a nums Hnum Hshort) in Hrun. }
    destruct (evalAtom_numeric a nums Hnum ltac:(lia)) as (nums1 & Heq & Hnum1 & Hlen1).
    rewrite Heq in Hrun. simpl in Hrun.
    rewrite arity_contribution in Hok.
    destruct k as [|k]; [lia|]. simpl.
    destruct k as [|k]; [simpl; lia|].
    specialize (IH nums1 Hnum1 (ex_intro _ nums' Hrun) (S k) ltac:(lia)). lia.
  - intros Hpos. destruct (evalLoop_numeric its nums Hnum Hpos) as (nums' & ? & _).
    by exists nums'.
Qed.

Lemma Peek_asNumber_numeric nums :
  numeric nums → items nums ≠ [] → ∃ v, (top ← Peek nums; asNumber top) = Some v.
Proof.
  destruct nums as [[|[o|v] ns]]; unfold numeric; simpl; intros Hnum Hne;
    [done | by inversion Hnum | by exists v].
Qed.

(** X1. [Valid] is the full simulation in short: a stack satisfies [Valid]
    exactly when the loop of [Evaluate] runs through it without a panic and
    leaves exactly one number on the accumulator. *)
Theorem Valid_simulation (s : Stack) :
  Valid s = true ↔
  ∃ nums, evalLoop (items s) (mkStack []) = Some nums
    ∧ length (items nums) = 1%nat.
Proof.
  split.
  - intros (nums & ? & _ & ?)%evalLoop_Valid. by exists nums.
  - intros (nums & Hrun & Hlen). apply Valid_wellFormed.
    pose proof (proj1 (evalLoop_positive (items s) (mkStack []) numeric_nil)
                  (ex_intro _ nums Hrun)) as Hpos.
    destruct (evalLoop_numeric (items s) (mkStack []) numeric_nil Hpos)
      as (nums' & Hrun' & _ & Hlen').
    rewrite Hrun in Hrun'. injection Hrun' as <-. simpl in *.
    split; [|lia]. intros k Hk. specialize (Hpos k Hk). lia.
Qed.

Lemma Evaluate_positive (s : Stack) :
  (∃ v, Evaluate s = Some v) ↔
  items s ≠ []
  ∧ ∀ k : nat, (1 ≤ k ≤ length (items s))%nat →
               0 < runningCount (take k (items s)).
Proof.
  unfold Evaluate, Copy. simpl. split.
  - intros [v Hv].
    destruct (evalLoop (items s) (mkStack [])) as [nums|] eqn:Hrun; [|done].
    pose proof (proj1 (evalLoop_positive (items s) (mkStack []) numeric_nil)
                  (ex_intro _ nums Hrun)) as Hpos. simpl in Hpos.
    split; [|intros k Hk; specialize (Hpos k Hk); lia].
    intros Hnil. rewrite Hnil in Hrun. simpl in Hrun. injection Hrun as <-. done.
  - intros [Hne Hpos].
    destruct (evalLoop_numeric (items s) (mkStack []) numeric_nil)
      as (nums & -> & Hnum & Hlen).
    { intros k Hk. simpl. specialize (Hpos k Hk). lia. }
    simpl. apply Peek_asNumber_numeric; [done|].
    intros Hnil. rewrite Hnil in Hlen. simpl in Hlen.
    specialize (Hpos (length (items s))). rewrite firstn_all in Hpos.
    destruct (items s); [done|]. simpl in *. lia.
Qed.

(** X2. [Evaluate] returns a value exactly on the stacks that are not empty
    and whose running count is positive after every atom; on every other
    stack (the empty one, an operator short of operands) it panics.  It asks
    less than [Valid]: the final count need not be 1. *)
Theorem Evaluate_returns_iff (s : Stack) :
  (∃ v, Evaluate s = Some v) ↔
  items s ≠ []
  ∧ ∀ k : nat, (1 ≤ k ≤ length (items s))%nat →
               0 < runningCount (take k (items s)).
Proof. apply Evaluate_positive. Qed.

Lemma Evaluate_scan (s : Stack) :
  (∃ v, Evaluate s = Some v) ↔ items s ≠ [] ∧ ∃ z, scan (items s) 0 = Some z.
Proof.
  rewrite Evaluate_positive. split; intros [Hne Hpos]; (split; [done|]).
  - exists (0 + runningCount (items s)). apply scan_count. split; [|done].
    intros k Hk. specialize (Hpos k Hk). lia.
  - destruct Hpos as [z [Hpos _]%scan_count]. intros k Hk.
    specialize (Hpos k Hk). lia.
Qed.

(** ** Evaluation of composed expressions *)

Lemma evalLoop_app pre post nums :
  evalLoop (pre ++ post) nums = evalLoop pre nums ≫= evalLoop post.
Proof.
  revert nums; induction pre as [|a pre IH]; intros nums; simpl; [done|].
  destruct (evalAtom a nums) as [nums'|]; simpl; [apply IH | done].
Qed.

(** What lies deeper in the accumulator than an iteration reaches is left
    alone. *)
Lemma evalAtom_frame atom nums nums' base :
  evalAtom atom nums = Some nums' →
  evalAtom atom (mkStack (items nums ++ base)) = Some (mkStack (items nums' ++ base)).
Proof.
  destruct nums as [ns].
  destruct atom as [[]|x]; simpl;
    destruct ns as [|[?|a] [|[?|b] ns]]; simpl; try done;
    intros [= <-]; reflexivity.
Qed.

Lemma evalLoop_frame its nums nums' base :
  evalLoop its nums = Some nums' →
  evalLoop its (mkStack (items nums ++ base)) = Some (mkStack (items nums' ++ base)).
Proof.
  revert nums; induction its as [|a its IH]; intros nums; simpl.
  - by intros [= <-].
  - destruct (evalAtom a nums) as [nums1|] eqn:Ha; [|done]. simpl.
    rewrite (evalAtom_frame _ _ _ base Ha). simpl. apply IH.
Qed.

(** The value of [Evaluate] is the number on top of the accumulator when the
    loop ends. *)
Lemma Evaluate_top s v :
  Evaluate s = Some v ↔
  ∃ rest, evalLoop (items s) (mkStack []) = Some (mkStack (Num v :: rest)).
Proof.
  unfold Evaluate, Copy. simpl. split.
  - destruct (evalLoop (items s) (mkStack [])) as [[[|[o|w] rest]]|]; simpl; try done.
    intros [= ->]. by exists rest.
  - by intros [rest ->].
Qed.

(** X3. Evaluation follows the structure of a postfix expression: when [l]
    evaluates to [x] and the valid stack [r] evaluates to [y], the sequence
    [l r o] evaluates to [x o y] for a binary operator [o]; and [l SQRT]
    evaluates to the square root of [x]. *)
Theorem Evaluate_compose (l r : Stack) (x y : float) :
  Evaluate l = Some x →
  Valid r = true →
  Evaluate r = Some y →
  Evaluate (mkStack (items l ++ items r ++ [Op ADD])) = Some (x + y)%float
  ∧ Evaluate (mkStack (items l ++ items r ++ [Op MUL])) = Some (x * y)%float
  ∧ Evaluate (mkStack (items l ++ items r ++ [Op DIV])) = Some (x / y)%float
  ∧ Evaluate (mkStack (items l ++ [Op SQRT])) = Some (PrimFloat.sqrt x).
Proof.
  intros [restl Hl]%Evaluate_top Hvalid [restr Hr]%Evaluate_top.
  destruct (evalLoop_Valid r Hvalid) as (nums & Hnums & _ & Hone).
  rewrite Hr in Hnums. injection Hnums as <-. simpl in Hone.
  destruct restr; [|done]. clear Hone.
  pose proof (evalLoop_frame _ _ _ (Num x :: restl) Hr) as Hr'. simpl in Hr'.
  assert (∀ o, evalLoop (items l ++ items r ++ [Op o]) (mkStack [])
               = evalAtom (Op o) (mkStack (Num y :: Num x :: restl)))
    as Hrun.
  { intros o. rewrite evalLoop_app, Hl. simpl. rewrite evalLoop_app, Hr'. simpl.
    by destruct (evalAtom (Op o) _). }
  repeat split; apply Evaluate_top; simpl.
  - rewrite (Hrun ADD). simpl. eauto.
  - rewrite (Hrun MUL). simpl. eauto.
  - rewrite (Hrun DIV). simpl. eauto.
  - rewrite evalLoop_app, Hl. simpl. eauto.
Qed.

Lemma Evaluate_compose_witness :
  Evaluate (mkStack [Num 1; Num 2; Op ADD]%float) = Some 3%float
  ∧ Valid (mkStack [Num 3; Num 4; Op DIV]%float) = true
  ∧ Evaluate (mkStack [Num 3; Num 4; Op DIV]%float) = Some 0.75%float
  ∧ Evaluate (mkStack ([Num 1; Num 2; Op ADD] ++ [Num 3; Num 4; Op DIV]
                       ++ [Op MUL])%float) = Some (3 * 0.75)%float.
Proof.
  split; [reflexivity|]. split; [reflexivity|]. split; [reflexivity|].
  apply (Evaluate_compose (mkStack [Num 1; Num 2; Op ADD]%float)
           (mkStack [Num 3; Num 4; Op DIV]%float) 3%float 0.75%float);
    reflexivity.
Defined.

(** ** Shape of valid stacks *)

Lemma runningCount_count its :
  runningCount its = count isLiteral its - count isBinary its.
Proof.
  induction its as [|a its IH]; simpl; [done|].
  rewrite IH. destruct a as [[]|]; simpl; lia.
Qed.

(** X4. The valid stacks are closed under the two ways [generateRecursive]
    builds them: a single literal is valid; a valid stack followed by [SQRT]
    is valid; two valid stacks followed by a binary operator are valid. *)
Theorem Valid_closed (l r : Stack) (o : Operator) (x : Number) :
  Valid l = true → Valid r = true → o ≠ SQRT →
  Valid (mkStack [Num x]) = true
  ∧ Valid (mkStack (items l ++ [Op SQRT])) = true
  ∧ Valid (mkStack (items l ++ items r ++ [Op o])) = true.
Proof.
  unfold Valid. rewrite !validLoop_scan. simpl.
  destruct (scan (items l) 0) as [zl|] eqn:Hl; [|done].
  destruct (scan (items r) 0) as [zr|] eqn:Hr; [|done].
  intros ->%Z.eqb_eq ->%Z.eqb_eq Ho. split; [done|]. split.
  - by rewrite (scan_valid_unary _ Hl).
  - by rewrite (scan_valid_binary _ _ _ Ho Hl Hr).
Qed.

Lemma Valid_closed_witness :
  Valid sample = true
  ∧ Valid (mkStack (items sample ++ items sample ++ [Op DIV])) = true.
Proof.
  split; [reflexivity|].
  apply (Valid_closed sample sample DIV 1%float); [reflexivity | reflexivity | discriminate].
Defined.

(** X5. In a stack that satisfies [Valid] the literals outnumber the binary
    operators by exactly one, the first atom is a literal, and, when there
    are two atoms or more, the last atom is an operator. *)
Theorem Valid_shape (s : Stack) :
  Valid s = true →
  count isLiteral (items s) = count isBinary (items s) + 1
  ∧ (∃ x rest, items s = Num x :: rest)
  ∧ ((2 ≤ length (items s))%nat → ∃ front o, items s = front ++ [Op o]).
Proof.
  intros [Hpos Hone]%Valid_wellFormed. split; [|split].
  - rewrite runningCount_count in Hone. lia.
  - destruct (items s) as [|[o|x] rest]; simpl in *; [lia | | by eauto].
    specialize (Hpos 1%nat ltac:(simpl; lia)). simpl in Hpos. destruct o; lia.
  - intros Hlen.
    destruct (items s) as [|a its] using rev_ind; [simpl in Hlen; lia|].
    rewrite length_app in Hlen. simpl in Hlen.
    specialize (Hpos (length its)). rewrite take_app_length in Hpos.
    rewrite length_app in Hpos. simpl in Hpos.
    specialize (Hpos ltac:(lia)).
    rewrite runningCount_app in Hone. simpl in Hone.
    destruct a as [o|x]; [by exists its, o | simpl in Hone; lia].
Qed.

Lemma Valid_shape_witness :
  Valid sample = true
  ∧ count isLiteral (items sample) = count isBinary (items sample) + 1.
Proof.
  split; [reflexivity|]. apply (Valid_shape sample). reflexivity.
Defined.

(** ** Splitting *)

Lemma Split_cons s sep : ∃ piece pieces, Split s sep = piece :: pieces.
Proof.
  destruct s as [|c s]; simpl; [by eauto|].
  destruct (Ascii.eqb c sep); [by eauto|]. destruct (Split s sep); by eauto.
Qed.

Lemma Split_app a b sep :
  Split (a ++ String sep b)%string sep = Split a sep ++ Split b sep.
Proof.
  induction a as [|c a IH]; simpl.
  - by rewrite Ascii.eqb_refl.
  - rewrite IH. destruct (Ascii.eqb c sep); [done|].
    by destruct (Split_cons a sep) as (piece & pieces & ->).
Qed.

Lemma Split_length s : length (Split s " ") = S (spaces s).
Proof.
  induction s as [|c s IH]; simpl; [done|].
  destruct (Split_cons s " ") as (piece & pieces & Heq). rewrite Heq in *.
  destruct (Ascii.eqb c " "); simpl in *; lia.
Qed.

(** ** Parsing token by token *)

Section ParseCompose.

Variable ParseFloat : string → option Number.

Lemma Parse_eq text :
  Parse ParseFloat text =
  match parseLoop ParseFloat (Split text " ") [] with
  | inl tok => ParseError tok
  | inr atoms => Parsed (mkStack atoms)
  end.
Proof.
  pose proof (Parse_outcome ParseFloat text).
  by destruct (parseLoop ParseFloat (Split text " ") []).
Qed.

Lemma parseLoop_acc toks acc :
  parseLoop ParseFloat toks acc =
  match parseLoop ParseFloat toks [] with
  | inl tok => inl tok
  | inr atoms => inr (acc ++ atoms)
  end.
Proof.
  revert acc; induction toks as [|tok toks IH]; intros acc; simpl.
  - by rewrite app_nil_r.
  - destruct (parseAtom ParseFloat tok) as [a|]; [|done].
    rewrite (IH (acc ++ [a])), (IH [a]).
    destruct (parseLoop ParseFloat toks []); [done|]. by rewrite <- app_assoc.
Qed.

Lemma parseLoop_app toks toks' :
  parseLoop ParseFloat (toks ++ toks') [] =
  match parseLoop ParseFloat toks [] with
  | inl tok => inl tok
  | inr atoms =>
      match parseLoop ParseFloat toks' [] with
      | inl tok => inl tok
      | inr atoms' => inr (atoms ++ atoms')
      end
  end.
Proof.
  induction toks as [|tok toks IH]; simpl.
  - by destruct (parseLoop ParseFloat toks' []).
  - destruct (parseAtom ParseFloat tok) as [a|]; [|done].
    rewrite (parseLoop_acc (toks ++ toks') [a]), (parseLoop_acc toks [a]), IH.
    destruct (parseLoop ParseFloat toks []); [done|].
    destruct (parseLoop ParseFloat toks' []); [done|]. by rewrite app_assoc.
Qed.

End ParseCompose.

(** X6. [Parse] works token by token: the parse of two texts joined by a
    space is the first error of the two parses, in order, and otherwise the
    atoms of the first stack followed by the atoms of the second. *)
Theorem Parse_concat (ParseFloat : string → option Number) (a b : string) :
  Parse ParseFloat (a ++ " " ++ b) =
  match Parse ParseFloat a with
  | Parsed sa =>
      match Parse ParseFloat b with
      | Parsed sb => Parsed (mkStack (items sa ++ items sb))
      | failure => failure
      end
  | failure => failure
  end.
Proof.
  rewrite !Parse_eq.
  change (a ++ " " ++ b)%string with (a ++ String " " b)%string.
  rewrite Split_app, parseLoop_app.
  destruct (parseLoop ParseFloat (Split a " ") []); [done|].
  by destruct (parseLoop ParseFloat (Split b " ") []).
Qed.

(** X7. A successful [Parse] returns one atom per token, that is one atom
    more than the text has spaces: it never returns the empty stack. *)
Theorem Parse_Len (ParseFloat : string → option Number) (text : string)
    (stack : Stack) :
  Parse ParseFloat text = Parsed stack →
  Len stack = Z.of_nat (spaces text) + 1.
Proof.
  intros (new & Hall & Heq)%Parse_Parsed_inr%parseLoop_inr.
  apply Forall2_length in Hall. unfold Len. rewrite Heq. simpl.
  rewrite <- Hall, Split_length. lia.
Qed.

Lemma Parse_Len_witness :
  Parse parseWhole "1 2 + 3 4 / * 10 +" = Parsed sample
  ∧ Len sample = Z.of_nat (spaces "1 2 + 3 4 / * 10 +") + 1.
Proof.
  split; [reflexivity|].
  apply (Parse_Len parseWhole "1 2 + 3 4 / * 10 +" sample). reflexivity.
Defined.

(** ** Random atoms *)

(** X8. [RandomOperator] never panics, takes exactly one draw, and returns
    [ADD], [DIV] or [MUL], never [SQRT]; each of the three is returned for
    some draw. *)
Theorem RandomOperator_range :
  (∀ src : Source, ∃ o,
     RandomOperator src = Some (o, λ k, src (S k)) ∧ o ≠ SQRT)
  ∧ (∀ o, o ≠ SQRT → ∃ (src : Source) src', RandomOperator src = Some (o, src')).
Proof.
  split.
  - intros src. unfold RandomOperator, mbind, Rand_bind, Intn. simpl.
    pose proof (Z.mod_pos_bound (src 0%nat) 3 ltac:(lia)) as Hr.
    assert (src 0%nat mod 3 = 0 ∨ src 0%nat mod 3 = 1 ∨ src 0%nat mod 3 = 2)
      as [-> | [-> | ->]] by lia; eexists; (split; [reflexivity | done]).
  - intros [] Ho; [exists (replay [0]) | exists (replay [1]) | exists (replay [2]) | done];
      eexists; reflexivity.
Qed.




(** ** Generator, further *)



(** X11. For a length below 1, [Generate] takes no draw and returns the
    empty stack, which does not satisfy [Valid] and on which [Evaluate]
    panics. *)
Theorem Generate_nothing (length : Z) (src : Source) :
  length < 1 →
  Generate length src = Some (mkStack [], src)
  ∧ Valid (mkStack []) = false
  ∧ Evaluate (mkStack []) = None.
Proof.
  intros Hlen. split; [|done].
  unfold Generate. rewrite generateRecursive_equation_1.
  destruct (Z_lt_dec length 1); [done | lia].
Qed.

Lemma Generate_nothing_witness :
  0 < 1 ∧ Generate 0 (replay []) = Some (mkStack [], replay []).
Proof.
  split; [done|]. apply (Generate_nothing 0 (replay [])). done.
Defined.

(** The longest sequence [generateRecursive] can return. *)
Lemma generateRecursive_longest lo hi len :
  - 2 ^ 62 ≤ lo → lo < hi → hi < 2 ^ 62 → 1 ≤ len →
  returns (generateRecursive lo hi len)
    (λ its, Z.of_nat (length its) ≤ Z.max len (2 * len - 3)).
Proof.
  funelim (generateRecursive lo hi len); intros Hlo Hlt Hhi Hlen; try lia.
  - eapply returns_bind; [by apply returns_RandomWholeNumber|].
    intros a _. apply returns_ret. simpl. lia.
  - eapply returns_bind; [by apply returns_RandomWholeNumber|].
    intros a _. apply returns_ret. simpl. lia.
  - eapply returns_bind; [by apply returns_RandomWholeNumber|]. intros a _.
    eapply returns_bind; [by apply returns_RandomWholeNumber|]. intros b _.
    eapply returns_bind; [apply returns_RandomOperator|]. intros o _.
    apply returns_ret. simpl. lia.
  - eapply returns_bind; [apply (returns_Intn 4); lia|]. intros c Hc.
    assert (2 ≤ len ÷ 2 ∧ 2 * (len ÷ 2) ≤ len) as [Hhalf Hdouble].
    { rewrite Z.quot_div_nonneg by lia. split; [apply Z.div_le_lower_bound; lia|].
      pose proof (Z.div_mod len 2 ltac:(lia)).
      pose proof (Z.mod_pos_bound len 2 ltac:(lia)). lia. }
    destruct (c =? 0).
    + eapply returns_bind; [apply H; [exact c | exact (λ _, 0) | ..]; lia|].
      intros l Hl. cbv beta in Hl. apply returns_ret.
      rewrite length_app. simpl. lia.
    + eapply returns_bind; [apply H1; [exact c | exact (λ _, 0) | ..]; lia|].
      intros l Hl.
      eapply returns_bind; [apply H0; [exact c | exact l | exact (λ _, 0) | ..]; lia|].
      intros r Hr. cbv beta in Hl, Hr.
      eapply returns_bind; [apply returns_RandomOperator|]. intros o _.
      apply returns_ret. rewrite !length_app. simpl. lia.
Qed.

(** X12. [Generate(n)] overshoots by less than a factor of two: for
    [n >= 1] it returns exactly [n] atoms when [n <= 3], and between [n] and
    [2n - 3] atoms when [n >= 4]. *)
Theorem Generate_length_bounds (n : Z) (src : Source) :
  1 ≤ n →
  ∃ s src', Generate n src = Some (s, src')
    ∧ n ≤ Len s ≤ Z.max n (2 * n - 3)
    ∧ (n ≤ 3 → Len s = n).
Proof.
  intros Hn.
  destruct (generateRecursive_generated 1 10 n
              ltac:(bounds; lia) ltac:(lia) ltac:(bounds; lia) Hn src)
    as (its & src' & Heq & _ & Hlow & _).
  destruct (generateRecursive_longest 1 10 n
              ltac:(bounds; lia) ltac:(lia) ltac:(bounds; lia) Hn src)
    as (its' & src'' & Heq' & Hhigh).
  rewrite Heq in Heq'. injection Heq' as <- <-.
  exists (mkStack its), src'. unfold Generate, mbind, Rand_bind. rewrite Heq.
  split; [done|]. unfold Len. simpl. split; [lia|]. lia.
Qed.

Lemma Generate_length_bounds_witness :
  1 ≤ 8
  ∧ ∃ s src', Generate 8 (replay [1; 1; 3; 4; 5; 1; 6; 7; 8]) = Some (s, src')
      ∧ 8 ≤ Len s ≤ Z.max 8 (2 * 8 - 3)
      ∧ (8 ≤ 3 → Len s = 8).
Proof.
  split; [done|]. apply (Generate_length_bounds 8). done.
Defined.

(** ** Search driver, further *)

Section SearchTurn.

Variable Sprint : Number → string.
Variable Pow10 : Z → float.

(** X13. With lengths [1 <= minLength < maxLength < 2^62], a turn of a
    [Search] worker never panics: it generates a valid expression of at
    least [minLength] and fewer than [2 * maxLength] atoms, evaluates it to
    [val], and prints a line exactly when [|approximate - val|] is below
    [epsilon = Pow10(-precision)]; the line holds that distance divided by
    [epsilon], [val] and the rendering of the expression. *)
Theorem Search_turn (approximate : float)
    (precision minLength maxLength minNum maxNum : Z) (src : Source) :
  1 ≤ minLength → minLength < maxLength → maxLength < 2 ^ 62 →
  ∃ expression val src',
    let epsilon := Pow10 (wrap64 (- precision)) in
    let diff := PrimFloat.abs (approximate - val)%float in
    Search Sprint Pow10 approximate precision minLength maxLength minNum maxNum src
    = Some (expression,
            if (diff <? epsilon)%float
            then Some ((diff / epsilon)%float, val,
                       Join (render Sprint <$> items expression) " ")
            else None,
            src')
    ∧ Valid expression = true
    ∧ Evaluate expression = Some val
    ∧ minLength ≤ Len expression < 2 * maxLength.
Proof.
  intros Hmin Hlt Hmax. unfold Search, workerTurn.
  rewrite (wrap64_small (maxLength - minLength)) by (bounds; lia).
  unfold mbind at 1, Rand_bind at 1, Intn at 1.
  destruct (Z.leb_spec (maxLength - minLength) 0); [lia|].
  pose proof (Z.mod_pos_bound (src 0%nat) (maxLength - minLength) ltac:(lia)) as Hn.
  set (n := src 0%nat mod (maxLength - minLength)) in *.
  rewrite (wrap64_small (n + minLength)) by (bounds; lia).
  set (src1 := λ k, src (S k)).
  destruct (generateRecursive_generated 1 10 (n + minLength)
              ltac:(bounds; lia) ltac:(lia) ltac:(bounds; lia) ltac:(lia) src1)
    as (its & src2 & Heq & Hgen).
  destruct (generateRecursive_longest 1 10 (n + minLength)
              ltac:(bounds; lia) ltac:(lia) ltac:(bounds; lia) ltac:(lia) src1)
    as (its' & src2' & Heq' & Hhigh).
  rewrite Heq in Heq'. injection Heq' as <- <-.
  pose proof (generated_Valid _ _ _ _ Hgen) as Hvalid.
  destruct (Evaluate_Valid _ Hvalid) as [val Hval].
  exists (mkStack its), val, src2.
  unfold Generate, mbind, Rand_bind. rewrite Heq. simpl.
  unfold NewStack. rewrite Hval. simpl.
  split; [|split; [done|split; [done|]]].
  - destruct (_ <? _)%float; [|done].
    unfold StackString. rewrite renderLoop_render. reflexivity.
  - destruct Hgen as (_ & Hlow & _). unfold Len. simpl. lia.
Qed.

(** X14. [Search] panics in its first turn when [maxLength <= minLength]
    ([rand.Intn] refuses the bound), and when the length drawn,
    [minLength] plus the draw reduced modulo [maxLength - minLength], is
    below 1 (the empty expression has no value). *)
Theorem Search_panics (approximate : float)
    (precision minLength maxLength minNum maxNum : Z) (src : Source) :
  - 2 ^ 62 ≤ minLength < 2 ^ 62 → - 2 ^ 62 ≤ maxLength < 2 ^ 62 →
  (maxLength ≤ minLength →
   Search Sprint Pow10 approximate precision minLength maxLength minNum maxNum src
   = None)
  ∧ (minLength < maxLength →
     src 0%nat mod (maxLength - minLength) + minLength < 1 →
     Search Sprint Pow10 approximate precision minLength maxLength minNum maxNum src
     = None).
Proof.
  intros Hmin Hmax. unfold Search, workerTurn.
  rewrite (wrap64_small (maxLength - minLength)) by (bounds; lia).
  split; [intros Hle | intros Hlt Hzero];
    unfold mbind at 1, Rand_bind at 1, Intn at 1;
    (destruct (Z.leb_spec (maxLength - minLength) 0); [try done; lia | try lia]).
  pose proof (Z.mod_pos_bound (src 0%nat) (maxLength - minLength) ltac:(lia)) as Hn.
  rewrite (wrap64_small (_ + minLength)) by (bounds; lia).
  unfold Generate, mbind, Rand_bind.
  rewrite generateRecursive_equation_1.
  destruct (Z_lt_dec _ 1); [done | lia].
Qed.

End SearchTurn.

Lemma Search_turn_witness :
  1 ≤ 10 ∧ 10 < 20 ∧ 20 < 2 ^ 62
  ∧ ∃ expression val src',
      Search sprintWhole pow10 Pi 5 10 20 1 100 (replay turnDraws)
      = Some (expression,
              if (PrimFloat.abs (Pi - val) <? pow10 (wrap64 (- 5)))%float
              then Some ((PrimFloat.abs (Pi - val) / pow10 (wrap64 (- 5)))%float,
                         val, Join (render sprintWhole <$> items expression) " ")
              else None,
              src')
      ∧ Valid expression = true
      ∧ Evaluate expression = Some val
      ∧ 10 ≤ Len expression < 2 * 20.
Proof.
  split; [done|]. split; [done|]. split; [done|].
  apply (Search_turn sprintWhole pow10 Pi 5 10 20 1 100); done.
Defined.

Lemma Search_panics_witness :
  - 2 ^ 62 ≤ 5 < 2 ^ 62 ∧ - 2 ^ 62 ≤ 5 < 2 ^ 62
  ∧ (5 ≤ 5 → Search sprintWhole pow10 Pi 5 5 5 1 100 (replay turnDraws) = None).
Proof.
  split; [done|]. split; [done|].
  apply (Search_panics sprintWhole pow10 Pi 5 5 5 1 100); done.
Defined.

(** ** Local improver, further *)

Lemma helps_unique expr target diff i num v :
  items expr !! i = Some (Num num) →
  Evaluate (mkStack (<[i := Num (num + 1)%float]> (items expr))) = Some v →
  (PrimFloat.abs (target - v) <? diff)%float = false →
  ¬ helps expr target diff i.
Proof.
  intros Hi Hv Hlt (num' & v' & Hi' & Hv' & Hlt').
  rewrite Hi in Hi'. injection Hi' as <-. rewrite Hv in Hv'. injection Hv' as <-.
  congruence.
Qed.

(** The loop of [Improve] over the indices [a, a + m): it stops at the first
    index that helps. *)
Lemma improveLoop_seq m a expr target val diff :
  Valid expr = true →
  (a + m ≤ length (items expr))%nat →
  ∃ improved newVal newDiff e,
    improveLoop (seq a m) expr target val diff = Some (improved, newVal, newDiff, e)
    ∧ if improved then
        ∃ i num, (a ≤ i < a + m)%nat
          ∧ items expr !! i = Some (Num num)
          ∧ items e = <[i := Num (num + 1)%float]> (items expr)
          ∧ helps expr target diff i
          ∧ ∀ j, (a ≤ j < i)%nat → ¬ helps expr target diff j
      else ∀ j, (a ≤ j < a + m)%nat → ¬ helps expr target diff j.
Proof.
  intros Hvalid. revert a. induction m as [|m IH]; intros a Hlen.
  - exists false, val, diff, expr. split; [done|]. intros j Hj. lia.
  - simpl.
    destruct (lookup_lt_is_Some_2 (items expr) a ltac:(lia)) as [atom Hatom].
    rewrite Hatom. simpl.
    assert (∀ improved newVal newDiff e,
              improveLoop (seq (S a) m) expr target val diff
              = Some (improved, newVal, newDiff, e) →
              ¬ helps expr target diff a →
              (if improved then
                 ∃ i num, (S a ≤ i < S a + m)%nat
                   ∧ items expr !! i = Some (Num num)
                   ∧ items e = <[i := Num (num + 1)%float]> (items expr)
                   ∧ helps expr target diff i
                   ∧ ∀ j, (S a ≤ j < i)%nat → ¬ helps expr target diff j
               else ∀ j, (S a ≤ j < S a + m)%nat → ¬ helps expr target diff j) →
              if improved then
                 ∃ i num, (a ≤ i < a + S m)%nat
                   ∧ items expr !! i = Some (Num num)
                   ∧ items e = <[i := Num (num + 1)%float]> (items expr)
                   ∧ helps expr target diff i
                   ∧ ∀ j, (a ≤ j < i)%nat → ¬ helps expr target diff j
               else ∀ j, (a ≤ j < a + S m)%nat → ¬ helps expr target diff j)
      as Hstep.
    { intros [] newVal newDiff e _ Hno Hrest.
      - destruct Hrest as (i & num & Hi & Hnum & He & Hhelps & Hfirst).
        exists i, num. split; [lia|]. repeat (split; [done|]).
        intros j Hj. destruct (decide (j = a)) as [->|]; [done|]. apply Hfirst. lia.
      - intros j Hj. destruct (decide (j = a)) as [->|]; [done|]. apply Hrest. lia. }
    destruct atom as [o|num]; simpl.
    + destruct (IH (S a) ltac:(lia)) as (improved & newVal & newDiff & e & Heq & Hres).
      exists improved, newVal, newDiff, e. split; [done|].
      apply (Hstep _ _ _ _ Heq); [|done].
      intros (num & v & Hnum & _). congruence.
    + pose proof (Valid_insert_Num expr a num (num + 1)%float Hatom) as Hvalid'.
      rewrite Hvalid in Hvalid'.
      destruct (Evaluate_Valid _ Hvalid') as [newVal HnewVal].
      simpl in HnewVal. rewrite HnewVal. simpl.
      destruct (PrimFloat.abs (target - newVal) <? diff)%float eqn:Hlt.
      * eexists true, _, _, _. split; [reflexivity|].
        exists a, num. split; [lia|]. split; [done|]. split; [done|].
        split; [by exists num, newVal|]. intros j Hj. lia.
      * rewrite list_insert_insert_eq, list_insert_id by done.
        replace (mkStack (items expr)) with expr by (by destruct expr).
        destruct (IH (S a) ltac:(lia)) as (improved & newVal' & newDiff & e & Heq & Hres).
        exists improved, newVal', newDiff, e. split; [done|].
        apply (Hstep _ _ _ _ Heq); [|done].
        by apply (helps_unique _ _ _ _ num newVal).
Qed.

(** X15. [Improve] is a first-improvement search: on a valid expression it
    returns [improved = true] exactly at the first index whose literal, once
    incremented, brings the value strictly closer to the target than [diff]
    (no index before it helps), and [improved = false] exactly when no index
    helps. *)
Theorem Improve_first (expr : Stack) (target val diff : float) :
  Valid expr = true →
  ∃ improved newVal newDiff e,
    Improve expr target val diff = Some (improved, newVal, newDiff, e)
    ∧ (improved = true →
       ∃ i num,
         items expr !! i = Some (Num num)
         ∧ items e = <[i := Num (num + 1)%float]> (items expr)
         ∧ helps expr target diff i
         ∧ ∀ j, (j < i)%nat → ¬ helps expr target diff j)
    ∧ (improved = false → ∀ j, ¬ helps expr target diff j).
Proof.
  intros Hvalid.
  destruct (improveLoop_seq (length (items expr)) 0 expr target val diff Hvalid
              ltac:(lia))
    as (improved & newVal & newDiff & e & Heq & Hres).
  exists improved, newVal, newDiff, e. split; [exact Heq|].
  destruct improved; (split; [|done]) || (split; [done|]).
  - intros _. destruct Hres as (i & num & _ & Hnum & He & Hhelps & Hfirst).
    exists i, num. repeat (split; [done|]). intros j Hj. apply Hfirst. lia.
  - intros _ j. destruct (decide (j < length (items expr))%nat) as [Hj|Hj].
    + apply Hres. lia.
    + intros (num & v & Hnum & _). apply lookup_lt_Some in Hnum. lia.
Qed.

Lemma Improve_first_witness :
  Valid sample = true
  ∧ ∃ improved newVal newDiff e,
      Improve sample 13%float 12.25%float 0.75%float
      = Some (improved, newVal, newDiff, e)
      ∧ (improved = false → ∀ j, ¬ helps sample 13%float 0.75%float j).
Proof.
  split; [reflexivity|].
  destruct (Improve_first sample 13%float 12.25%float 0.75%float eq_refl)
    as (improved & newVal & newDiff & e & Heq & _ & Hnone).
  by exists improved, newVal, newDiff, e.
Defined.

(** X16. [Improve] keeps the shape of a valid expression: the expression it
    returns satisfies [Valid], has the same length, and holds the same
    operators at the same positions. *)
Theorem Improve_shape (expr : Stack) (target val diff : float) :
  Valid expr = true →
  ∃ improved newVal newDiff e,
    Improve expr target val diff = Some (improved, newVal, newDiff, e)
    ∧ Valid e = true
    ∧ Len e = Len expr
    ∧ ∀ j o, items e !! j = Some (Op o) ↔ items expr !! j = Some (Op o).
Proof.
  intros Hvalid.
  destruct (improveLoop_result (seq 0 (length (items expr))) expr target val diff Hvalid)
    as (improved & newVal & newDiff & e & Heq & Hres).
  { apply Forall_forall. intros i Hi%elem_of_seq. lia. }
  exists improved, newVal, newDiff, e. split; [exact Heq|].
  destruct improved.
  - destruct Hres as (i & num & Hi & He & _).
    pose proof (lookup_lt_Some _ _ _ Hi) as Hlen.
    split; [|split].
    + destruct e as [its]. simpl in He. subst its.
      by rewrite (Valid_insert_Num expr i num).
    + unfold Len. by rewrite He, length_insert.
    + intros j o. rewrite He. destruct (decide (j = i)) as [->|Hne].
      * rewrite list_lookup_insert_eq by done. rewrite Hi. split; congruence.
      * by rewrite list_lookup_insert_ne.
  - destruct Hres as (-> & _). done.
Qed.

Lemma Improve_shape_witness :
  Valid sample = true
  ∧ ∃ improved newVal newDiff e,
      Improve sample 13%float 12.25%float 0.75%float
      = Some (improved, newVal, newDiff, e)
      ∧ Valid e = true.
Proof.
  split; [reflexivity|].
  destruct (Improve_shape sample 13%float 12.25%float 0.75%float eq_refl)
    as (improved & newVal & newDiff & e & Heq & Hvalid & _).
  by exists improved, newVal, newDiff, e.
Defined.

Lemma Evaluate_insert_None s i num y :
  items s !! i = Some (Num num) →
  Evaluate s = None →
  Evaluate (mkStack (<[i := Num y]> (items s))) = None.
Proof.
  intros Hi Hnone.
  destruct (Evaluate (mkStack (<[i := Num y]> (items s)))) as [v|] eqn:Hv; [|done].
  assert (∃ v, Evaluate s = Some v) as [w Hw]; [|congruence].
  apply Evaluate_scan.
  destruct (proj1 (Evaluate_scan _) (ex_intro _ v Hv)) as [Hne [z Hz]].
  simpl in Hz. split.
  - intros Hnil. rewrite Hnil in Hi. done.
  - rewrite (scan_insert_Num _ _ num) in Hz by done. by exists z.
Qed.

Lemma improveLoop_operators range expr target val diff :
  Forall (λ i, ∃ o, items expr !! i = Some (Op o)) range →
  improveLoop range expr target val diff = Some (false, val, diff, expr).
Proof.
  induction range as [|i range IH]; intros Hall; simpl; [done|].
  inversion Hall as [|?? [o Ho] Hall']; subst. rewrite Ho. simpl. by apply IH.
Qed.

Lemma improveLoop_panics range expr target val diff :
  Evaluate expr = None →
  Forall (λ i, (i < length (items expr))%nat) range →
  (∃ i num, i ∈ range ∧ items expr !! i = Some (Num num)) →
  improveLoop range expr target val diff = None.
Proof.
  intros Hnone. induction range as [|i range IH]; intros Hrange (j & num & Hj & Hnum).
  - by apply elem_of_nil in Hj.
  - inversion Hrange as [|?? Hi Hrange']; subst. simpl.
    destruct (lookup_lt_is_Some_2 _ _ Hi) as [atom Hatom]. rewrite Hatom. simpl.
    destruct atom as [o|num']; simpl.
    + apply IH; [done|]. exists j, num. split; [|done].
      apply elem_of_cons in Hj as [->|Hj]; [congruence | done].
    + by rewrite (Evaluate_insert_None expr i num' _ Hatom Hnone).
Qed.

(** X17. On the stacks [Evaluate] refuses, [Improve] panics as soon as the
    stack holds a literal (it re-evaluates at the first one); on a stack of
    operators only, the empty stack included, it evaluates nothing and
    returns [improved = false] with its arguments unchanged. *)
Theorem Improve_invalid (expr : Stack) (target val diff : float) :
  ((∀ i x, items expr !! i ≠ Some (Num x)) →
   Improve expr target val diff = Some (false, val, diff, expr))
  ∧ (Evaluate expr = None →
     (∃ i x, items expr !! i = Some (Num x)) →
     Improve expr target val diff = None).
Proof.
  unfold Improve. split.
  - intros Hops. apply improveLoop_operators, Forall_forall.
    intros i Hi%elem_of_seq.
    destruct (lookup_lt_is_Some_2 (items expr) i ltac:(lia)) as [[o|x] Ha];
      [by exists o | by destruct (Hops i x)].
  - intros Hnone (i & x & Hi). apply improveLoop_panics; [done | |].
    + apply Forall_forall. intros j Hj%elem_of_seq. lia.
    + exists i, x. split; [|done]. apply elem_of_seq.
      apply lookup_lt_Some in Hi. lia.
Qed.

(** ** Value stack *)

(** X18. The value stack is last in, first out at its front: [Pop] after
    [Push] gives back the atom and the stack, [Peek] reads what [Pop] would
    remove, [Pop] and [Peek] panic exactly when [Len] is 0, and a successful
    [Pop] lowers [Len] by one and is undone by [Push]. *)
Theorem Stack_front (s : Stack) (atom : Atom) :
  Pop (Push atom s) = Some (atom, s)
  ∧ Peek (Push atom s) = Some atom
  ∧ Len (Push atom s) = Len s + 1
  ∧ (Pop s = None ↔ Len s = 0)
  ∧ (Peek s = None ↔ Len s = 0)
  ∧ (∀ a s', Pop s = Some (a, s') →
       Peek s = Some a ∧ Len s' = Len s - 1 ∧ Push a s' = s).
Proof.
  destruct s as [its]. unfold Pop, Peek, Push, Len. simpl.
  split; [done|]. split; [done|]. split; [lia|].
  destruct its as [|b its]; simpl.
  - repeat split; done.
  - split; [split; [done | lia]|]. split; [split; [done | lia]|].
    intros a s' [= <- <-]. simpl. repeat split; lia || done.
Qed.

(** ** Rendering, further *)

Lemma append_assoc (a b c : string) : ((a ++ b) ++ c = a ++ b ++ c)%string.
Proof. induction a as [|x a IH]; simpl; [done | by rewrite IH]. Qed.

Lemma Join_app (l r : list string) (sep : string) :
  l ≠ [] → r ≠ [] →
  Join (l ++ r) sep = (Join l sep ++ sep ++ Join r sep)%string.
Proof.
  induction l as [|x l IH]; [done|]. intros _ Hr.
  destruct l as [|y l].
  - simpl. by destruct r.
  - change (Join ((x :: y :: l) ++ r) sep)
      with (x ++ sep ++ Join ((y :: l) ++ r) sep)%string.
    rewrite IH by done.
    change (Join (x :: y :: l) sep) with (x ++ sep ++ Join (y :: l) sep)%string.
    by rewrite !append_assoc.
Qed.

(** X19. [String] never panics; the empty stack renders as the empty text,
    and a stack made of two stacks that are not empty renders as the two
    texts joined by one space. *)
Theorem StackString_concat (Sprint : Number → string) (l r : Stack) :
  StackString Sprint (mkStack []) = Some EmptyString
  ∧ ∃ tl tr,
      StackString Sprint l = Some tl
      ∧ StackString Sprint r = Some tr
      ∧ (items l ≠ [] → items r ≠ [] →
         StackString Sprint (mkStack (items l ++ items r))
         = Some (tl ++ " " ++ tr)%string).
Proof.
  split; [done|]. eexists _, _.
  rewrite !StackString_render. split; [done|]. split; [done|].
  intros Hl Hr. simpl. rewrite fmap_app, Join_app; [done | |].
  - by destruct (items l).
  - by destruct (items r).
Qed.

Lemma Improve_invalid_witness :
  Improve (mkStack [Num 1%float; Op ADD]) 3%float 1%float 2%float = None.
Proof.
  apply (Improve_invalid (mkStack [Num 1%float; Op ADD])); [reflexivity|].
  by exists 0%nat, 1%float.
Defined.

(** ** The earlier version *)

Lemma Legacy_valence atom : Legacy.valence atom = valence (current atom).
Proof. by destruct atom as [[]|]. Qed.

Lemma Legacy_validLoop its size :
  Legacy.validLoop its size = validLoop (current <$> its) size.
Proof.
  revert size; induction its as [|a its IH]; intros size; simpl; [done|].
  rewrite Legacy_valence. destruct (_ <=? 0); [done | apply IH].
Qed.

Lemma Legacy_evalAtom atom nums :
  currentStack <$> Legacy.evalAtom atom nums
  = evalAtom (current atom) (currentStack nums).
Proof.
  destruct nums as [ns].
  destruct atom as [[]|x]; try reflexivity;
    destruct ns as [|[[]|a] [|[[]|b] ns]]; reflexivity.
Qed.

(** The earlier loop, run for as many iterations as the stack has atoms,
    empties the stack and computes what the current loop computes. *)
Lemma Legacy_evalLoop its nums :
  match Legacy.evalLoop (length its) (Legacy.mkStack its) nums with
  | Some (stack, nums') =>
      stack = Legacy.mkStack []
      ∧ evalLoop (current <$> its) (currentStack nums) = Some (currentStack nums')
  | None => evalLoop (current <$> its) (currentStack nums) = None
  end.
Proof.
  revert nums; induction its as [|a its IH]; intros nums; simpl; [done|].
  unfold Legacy.Pop. simpl. rewrite <- Legacy_evalAtom.
  destruct (Legacy.evalAtom a nums) as [nums1|]; simpl; [apply IH | done].
Qed.

Lemma Legacy_Evaluate_eq s :
  Legacy.Evaluate s
  = (λ v, (v, Legacy.mkStack [])) <$> Evaluate (currentStack s).
Proof.
  destruct s as [its]. unfold Legacy.Evaluate, Evaluate, Copy. simpl.
  pose proof (Legacy_evalLoop its (Legacy.mkStack [])) as Hloop.
  destruct (Legacy.evalLoop (length its) (Legacy.mkStack its) (Legacy.mkStack []))
    as [[stack nums']|].
  - destruct Hloop as [-> Hloop]. unfold currentStack in Hloop at 1. simpl in Hloop.
    rewrite Hloop. simpl. by destruct nums' as [[|[[]|x] ns]].
  - unfold currentStack in Hloop. simpl in Hloop. by rewrite Hloop.
Qed.

(** X20. The current [Valid] and [Evaluate] extend the earlier ones: on a
    stack of the earlier version (no [SQRT]) the earlier [Valid] gives what
    the current [Valid] gives, and the earlier [Evaluate] returns the value
    the current one returns, or panics when it does. *)
Theorem Legacy_agrees (s : Legacy.Stack) :
  Legacy.Valid s = Valid (currentStack s)
  ∧ fst <$> Legacy.Evaluate s = Evaluate (currentStack s).
Proof.
  split; [apply Legacy_validLoop|].
  rewrite Legacy_Evaluate_eq. by destruct (Evaluate (currentStack s)).
Qed.

(** X21. The earlier [Evaluate] consumes its argument: when it returns, the
    caller's stack is empty, so evaluating the same stack again panics. *)
Theorem Legacy_Evaluate_consumes (s s' : Legacy.Stack) (v : float) :
  Legacy.Evaluate s = Some (v, s') →
  Legacy.Len s' = 0 ∧ Legacy.Evaluate s' = None.
Proof.
  rewrite Legacy_Evaluate_eq.
  destruct (Evaluate (currentStack s)); simpl; [|done]. by intros [= _ <-].
Qed.

Lemma Legacy_Evaluate_consumes_witness :
  Legacy.Evaluate
    (Legacy.mkStack [Legacy.Num 1%float; Legacy.Num 2%float; Legacy.Op Legacy.ADD])
  = Some (3%float, Legacy.mkStack [])
  ∧ Legacy.Len (Legacy.mkStack []) = 0
  ∧ Legacy.Evaluate (Legacy.mkStack []) = None.
Proof.
  split; [reflexivity|].
  apply (Legacy_Evaluate_consumes
           (Legacy.mkStack [Legacy.Num 1%float; Legacy.Num 2%float;
                            Legacy.Op Legacy.ADD])
           (Legacy.mkStack []) 3%float).
  reflexivity.
Defined.

Section LegacyParser.

Variable ParseFloat : string → option Number.

Lemma Legacy_parseAtom tok :
  tok ≠ "√" →
  current <$> Legacy.parseAtom ParseFloat tok = parseAtom ParseFloat tok.
Proof.
  intros Hne. unfold Legacy.parseAtom, parseAtom.
  destruct (String.eqb tok "+"); [done|].
  destruct (String.eqb tok "*"); [done|].
  destruct (String.eqb tok "/"); [done|].
  destruct (String.eqb_spec tok "√"); [done|].
  by destruct (ParseFloat tok).
Qed.

Lemma Legacy_parseLoop toks acc :
  "√" ∉ toks →
  match Legacy.parseLoop ParseFloat toks acc with
  | inl tok => parseLoop ParseFloat toks (current <$> acc) = inl tok
  | inr atoms => parseLoop ParseFloat toks (current <$> acc) = inr (current <$> atoms)
  end.
Proof.
  revert acc; induction toks as [|tok toks IH]; intros acc Hno; simpl; [done|].
  apply not_elem_of_cons in Hno as [Hne Hno].
  rewrite <- (Legacy_parseAtom tok) by done.
  destruct (Legacy.parseAtom ParseFloat tok) as [a|]; simpl; [|done].
  specialize (IH (acc ++ [a]) Hno). by rewrite fmap_app in IH.
Qed.

Lemma Legacy_parseLoop_refused toks acc tok :
  tok ∈ toks → Legacy.parseAtom ParseFloat tok = None →
  ∃ t, Legacy.parseLoop ParseFloat toks acc = inl t.
Proof.
  intros Hin Hnone. revert acc.
  induction toks as [|t toks IH]; intros acc; [by apply elem_of_nil in Hin|].
  simpl. destruct (Legacy.parseAtom ParseFloat t) as [a|] eqn:Ha; [|by eauto].
  apply elem_of_cons in Hin as [->|Hin]; [congruence | by apply IH].
Qed.

Lemma Legacy_pushLoop_drop atoms (m k : nat) :
  (k + m)%nat = length atoms →
  Legacy.pushLoop (seqZ (Z.of_nat k) (Z.of_nat m)) atoms (Z.of_nat (length atoms))
    (Legacy.mkStack (drop (length atoms - k) atoms))
  = Some (Legacy.mkStack atoms).
Proof.
  revert k; induction m as [|m IH]; intros k Hlen.
  - simpl. replace (length atoms - k)%nat with 0%nat by lia. by destruct atoms.
  - rewrite Nat2Z.inj_succ, seqZ_cons by lia. simpl.
    unfold index.
    destruct (Z.ltb_spec (Z.of_nat (length atoms) - Z.of_nat k - 1) 0); [lia|].
    replace (Z.to_nat (Z.of_nat (length atoms) - Z.of_nat k - 1))
      with (length atoms - S k)%nat by lia.
    destruct (lookup_lt_is_Some_2 atoms (length atoms - S k)%nat ltac:(lia))
      as [a Ha].
    rewrite Ha. simpl. unfold Legacy.Push. simpl.
    replace (Z.succ (Z.of_nat k)) with (Z.of_nat (S k)) by lia.
    replace (Z.pred (Z.succ (Z.of_nat m))) with (Z.of_nat m) by lia.
    rewrite <- (IH (S k)) by lia. do 3 f_equal.
    rewrite (drop_S atoms a (length atoms - S k)) by done.
    do 2 f_equal. lia.
Qed.

Lemma Legacy_Parse_eq text :
  Legacy.Parse ParseFloat text =
  match Legacy.parseLoop ParseFloat (Split text " ") [] with
  | inl tok => Legacy.ParseError tok
  | inr atoms => Legacy.Parsed (Legacy.mkStack atoms)
  end.
Proof.
  unfold Legacy.Parse.
  destruct (Legacy.parseLoop ParseFloat (Split text " ") []) as [tok|atoms]; [done|].
  pose proof (Legacy_pushLoop_drop atoms (length atoms) 0 ltac:(lia)) as Hpush.
  rewrite Nat.sub_0_r, drop_all in Hpush. change (Z.of_nat 0) with 0 in Hpush.
  cbv zeta. by rewrite Hpush.
Qed.

End LegacyParser.

(** X22. The current [Parse] extends the earlier one: on a text with no
    token [√] both return the same error or the same atoms; on a text with a
    token [√], which [ParseFloat] does not read as a number, the earlier
    [Parse] returns an error. *)
Theorem Legacy_Parse_agrees (ParseFloat : string → option Number)
    (text : string) :
  ("√" ∉ Split text " " →
   currentOutcome (Legacy.Parse ParseFloat text) = Parse ParseFloat text)
  ∧ (ParseFloat "√" = None → "√" ∈ Split text " " →
     ∃ tok, Legacy.Parse ParseFloat text = Legacy.ParseError tok).
Proof.
  rewrite Legacy_Parse_eq, Parse_eq. split.
  - intros Hno. pose proof (Legacy_parseLoop ParseFloat (Split text " ") [] Hno) as Hloop.
    destruct (Legacy.parseLoop ParseFloat (Split text " ") []); simpl in *;
      by rewrite Hloop.
  - intros Hsqrt Hin.
    destruct (Legacy_parseLoop_refused ParseFloat (Split text " ") [] "√" Hin)
      as [t ->]; [|by exists t].
    unfold Legacy.parseAtom. simpl. by rewrite Hsqrt.
Qed.

Lemma Legacy_Parse_agrees_witness :
("√" ∉ Split "1 2 +" " ")
  ∧ currentOutcome (Legacy.Parse parseWhole "1 2 +") = Parse parseWhole "1 2 +".
Proof.
  assert ("√" ∉ Split "1 2 +" " ") as Hno.
  { simpl. intros Hin.
    repeat (apply elem_of_cons in Hin as [Hin|Hin]; [discriminate Hin|]).
    by apply elem_of_nil in Hin. }
  split; [exact Hno|].
  by apply (Legacy_Parse_agrees parseWhole "1 2 +").
Defined.
